(** * Collective Ed25519 signatures (package [cosi])

    A shallow embedding of [ed25519/cosi/cosi.go] and the properties of
    its cosigner set, its one-time secrets, its aggregation functions and
    its verifier.

    Conventions of the embedding.
    - A Go byte slice or byte array is a [list byte]; a fixed-size array
      such as [[32]byte] is a list whose length the operations keep.
    - [big.Int] is [Z]; Go's [int] is [nat] for lengths and loop indices
      and [Z] where the caller supplies it ([SetMaskBit], [VerifyPart],
      [ThresholdPolicy]).
    - A method with a pointer receiver takes the receiver's value and
      returns the new one next to its result (explicit state passing).
    - A Go panic is the [Panic] outcome; the state that the panicking call
      leaves behind is returned with it.
    - The package [edwards25519] and SHA-512 are not part of this file's
      source: their operations are variables of the section [Cosi]. *)

From Stdlib Require Import ZArith List Lia Bool Morphisms RelationClasses.
From coqutil Require Import Byte Word.LittleEndianList.
From stdpp Require Import base list.
Import ListNotations.

#[local] Set Default Proof Using "Type".
#[local] Set Proof Using Clear Unused.
#[local] Open Scope Z_scope.

(** ** Bytes and slices *)

Definition zeros (n : nat) : list byte := replicate n Byte.x00.

(** Go's builtin [copy(dst, src)]: the first [min (len dst) (len src)]
    elements of [dst] are overwritten; the result is the new [dst]. *)
Definition copy (dst src : list byte) : list byte :=
  firstn (length dst) src ++ skipn (length src) dst.

Definition byte_or (a b : byte) : byte :=
  byte.of_Z (Z.lor (byte.unsigned a) (byte.unsigned b)).

(** [1 << uint(k)] at type [byte]. *)
Definition byte_shl1 (k : Z) : byte := byte.of_Z (Z.shiftl 1 k).

Definition byte_nonzero (b : byte) : bool := negb (byte.unsigned b =? 0).

(** [i>>3] and [i&7] for a loop index. *)
Definition idx_byte (i : nat) : nat := Z.to_nat (Z.shiftr (Z.of_nat i) 3).
Definition idx_bit (i : nat) : Z := Z.land (Z.of_nat i) 7.

(** The test of [SetMask]'s loop:
    [(i>>3 < masklen) && (mask[i>>3] & (1 << uint(i&7)) != 0)]. *)
Definition packed_bit (mask : list byte) (i : nat) : bool :=
  match mask !! idx_byte i with
  | Some b => byte_nonzero (byte.and b (byte_shl1 (idx_bit i)))
  | None => false
  end.

(** [subtle.ConstantTimeCompare]: 1 when the slices are equal, else 0. *)
Definition ConstantTimeCompare (x y : list byte) : Z :=
  if (length x =? length y)%nat
     && forallb (fun p => Byte.eqb (fst p) (snd p)) (combine x y)
  then 1 else 0.

(** ** [big.Int] as used for the mask *)

(** [x.Bit(i)], for [0 <= i]; Go panics on a negative index, which the
    callers below rule out or model themselves. *)
Definition Bit (x : Z) (i : Z) : Z := Z.b2z (Z.testbit x i).

(** [z.SetBit(x, i, b)] for [0 <= i] and [b] in {0, 1}. *)
Definition SetBit (x : Z) (i : Z) (b : Z) : Z :=
  if b =? 0 then Z.clearbit x i else Z.setbit x i.

(** ** Scalars modulo the group order *)

Definition ell : Z := 2 ^ 252 + 27742317777372353535851937790883648493.

(** Modelled from the spec: [edwards25519.ScReduce] is not in the source
    tree; it reduces a 64-byte little-endian integer modulo [ell] and
    writes the 32-byte little-endian result. *)
Definition ScReduce (s : list byte) : list byte :=
  le_split 32 (le_combine s mod ell).

(** Modelled from the spec: [edwards25519.ScMulAdd] is not in the source
    tree; [ScMulAdd(s, a, b, c)] sets [s = a*b + c mod ell] on 32-byte
    little-endian scalars. *)
Definition ScMulAdd (a b c : list byte) : list byte :=
  le_split 32 ((le_combine a * le_combine b + le_combine c) mod ell).

Definition scOne : list byte := Byte.x01 :: zeros 31.

(** ** Outcomes *)

Inductive panic : Type :=
| BadPrivateKeyLength (l : nat)
| BadAggregateRLength (l : nat)
| SecretReused
| NegativeBitIndex
| IndexOutOfRange.

Inductive outcome (A : Type) : Type :=
| Ret (a : A)
| Panic (p : panic).
Arguments Ret {A} a.
Arguments Panic {A} p.

Definition returns {A} (o : outcome A) : bool :=
  match o with Ret _ => true | Panic _ => false end.

Definition PrivateKeySize : nat := 64.
Definition PublicKeySize : nat := 32.
Definition SignatureSize : nat := 64.

(** [MaskBit]: [Enabled = false], [Disabled = true]. *)
Definition MaskBit := bool.
Definition Enabled : MaskBit := false.
Definition Disabled : MaskBit := true.

(** [edwards25519.ExtendedGroupElement]: four field elements. *)
Record ExtendedGroupElement (fe : Type) : Type := mkGE {
  geX : fe; geY : fe; geZ : fe; geT : fe
}.
Arguments mkGE {fe} _ _ _ _.
Arguments geX {fe} _.
Arguments geY {fe} _.
Arguments geZ {fe} _.
Arguments geT {fe} _.

(** [Secret]: the reduced one-time scalar and its single-use flag. *)
Record Secret : Type := mkSecret {
  reduced : list byte;
  valid : bool
}.

(** The elements of a slice at the indices [i, i+1, ...] whose mask bit is
    clear, in index order. *)
Fixpoint pick_enabled {A} (mask : Z) (i : nat) (l : list A) : list A :=
  match l with
  | [] => []
  | x :: l' =>
      if Z.testbit mask (Z.of_nat i) then pick_enabled mask (S i) l'
      else x :: pick_enabled mask (S i) l'
  end.

(** ** A small instance of the primitives

    Integers stand for field elements, points add coordinate by
    coordinate, and the hash is a little-endian re-encoding.  It serves to
    run the definitions below on concrete inputs. *)
Module Toy.
Definition fe : Type := Z.
Definition FeNeg (x : fe) : fe := - x.
Definition ge : Type := ExtendedGroupElement fe.
Definition ge_Zero : ge := mkGE 0 0 0 0.
Definition ge_Add (p q : ge) : ge :=
  mkGE (geX p + geX q) (geY p + geY q) (geZ p + geZ q) (geT p + geT q).
Definition ge_Sub (p q : ge) : ge :=
  mkGE (geX p - geX q) (geY p - geY q) (geZ p - geZ q) (geT p - geT q).
(** An encoding is accepted when the integer it encodes is even. *)
Definition ge_FromBytes (s : list byte) : option ge :=
  if Z.even (le_combine s) then Some (mkGE (le_combine s) 1 1 0) else None.
Definition ge_ToBytes (p : ge) : list byte := le_split 32 (geX p).
Definition GeScalarMultBase (a : list byte) : ge := mkGE (2 * le_combine a) 1 1 0.
Definition pge : Type := Z.
Definition GeDoubleScalarMultVartime (a : list byte) (A : ge) (b : list byte) : pge :=
  le_combine a * geX A + 2 * le_combine b.
Definition pge_ToBytes (p : pge) : list byte := le_split 32 p.
Definition sha512 (m : list byte) : list byte :=
  le_split 64 (3 * le_combine m + Z.of_nat (length m) + 1).
End Toy.

Section Cosi.

(** *** The primitives of [edwards25519] and [crypto/sha512] *)

Variable fe : Type.                      (* edwards25519.FieldElement *)
Variable FeNeg : fe -> fe.               (* FeNeg(dst, src) *)
Local Abbreviation ge := (ExtendedGroupElement fe).
Variable ge_eqv : relation ge.           (* the same curve point *)
Variable ge_Zero : ge.                   (* p.Zero() *)
Variable ge_Add : ge -> ge -> ge.        (* r.Add(a, b) *)
Variable ge_Sub : ge -> ge -> ge.        (* r.Sub(a, b) *)
Variable ge_FromBytes : list byte -> option ge.  (* p.FromBytes(&s), None when false *)
Variable ge_ToBytes : ge -> list byte.   (* p.ToBytes(&s) *)
Variable GeScalarMultBase : list byte -> ge.
Variable pge : Type.                     (* edwards25519.ProjectiveGroupElement *)
Variable GeDoubleScalarMultVartime : list byte -> ge -> list byte -> pge.
Variable pge_ToBytes : pge -> list byte.
Variable sha512 : list byte -> list byte.  (* the digest of all bytes written *)

(** *** Policies and the cosigner set *)

(** [Policy]: the two built-in policies, and a custom one that inspects
    the set (keys, mask, cached aggregate) without changing it. *)
Inductive Policy : Type :=
| fullPolicy
| thresPolicy (t : Z)
| customPolicy (check : list ge -> Z -> ge -> bool).

Record Cosigners : Type := mkCosigners {
  keys : list ge;       (* all cosigners' public keys, internalized *)
  mask : Z;             (* bit-vector of disabled cosigners *)
  aggr : ge;            (* cached aggregate of the enabled keys *)
  policy : Policy
}.

Definition ThresholdPolicy (threshold : Z) : Policy := thresPolicy threshold.

Definition CountTotal (cos : Cosigners) : nat := length (keys cos).

(** [MaskBit] at a loop index (never negative, so [Bit] cannot panic). *)
Definition maskBitAt (cos : Cosigners) (i : nat) : MaskBit :=
  negb (Bit (mask cos) (Z.of_nat i) =? 0).

(** [MaskBit(signer)]: [big.Int.Bit] panics on a negative index. *)
Definition MaskBitOf (cos : Cosigners) (signer : Z) : outcome MaskBit :=
  if signer <? 0 then Panic NegativeBitIndex
  else Ret (negb (Bit (mask cos) signer =? 0)).

Definition CountEnabled (cos : Cosigners) : nat :=
  fold_left (fun count i =>
               if Bool.eqb (maskBitAt cos i) Enabled then S count else count)
            (seq 0 (length (keys cos))) 0%nat.

Definition Check (p : Policy) (cos : Cosigners) : bool :=
  match p with
  | fullPolicy => (CountEnabled cos =? CountTotal cos)%nat
  | thresPolicy t => t <=? Z.of_nat (CountEnabled cos)
  | customPolicy check => check (keys cos) (mask cos) (aggr cos)
  end.

(** The loop of [SetMask], at index [i] with the keys [ks] still to
    visit; [mk] and [ag] are [cos.mask] and [cos.aggr]. *)
Fixpoint SetMask_loop (m : list byte) (i : nat) (ks : list ge)
         (mk : Z) (ag : ge) : Z * ge :=
  match ks with
  | [] => (mk, ag)
  | k :: ks' =>
      if packed_bit m i
      then SetMask_loop m (S i) ks' (SetBit mk (Z.of_nat i) 1) ag   (* disable *)
      else SetMask_loop m (S i) ks' mk (ge_Add ag k)                (* enable *)
  end.

Definition SetMask (m : list byte) (cos : Cosigners) : Cosigners :=
  let '(mk, ag) := SetMask_loop m 0 (keys cos) 0 ge_Zero in
  mkCosigners (keys cos) mk ag (policy cos).

Definition MaskLen (cos : Cosigners) : nat :=
  Z.to_nat (Z.shiftr (Z.of_nat (length (keys cos) + 7)) 3).

(** One iteration of the loop of [Mask()]; the index [i>>3] is always
    inside the slice (lemma [Mask_index_in_range]). *)
Definition Mask_step (cos : Cosigners) (m : list byte) (i : nat) : list byte :=
  if 0 <? Bit (mask cos) (Z.of_nat i)
  then alter (fun b => byte_or b (byte_shl1 (idx_bit i))) (idx_byte i) m
  else m.

Definition Mask (cos : Cosigners) : list byte :=
  fold_left (Mask_step cos) (seq 0 (length (keys cos))) (zeros (MaskLen cos)).

(** [SetMaskBit(signer, bit)].  [big.Int.Bit] panics on a negative index;
    [cos.keys[signer]] panics out of range, after the mask was changed. *)
Definition SetMaskBit (signer : Z) (bit : MaskBit) (cos : Cosigners)
  : outcome unit * Cosigners :=
  if signer <? 0 then (Panic NegativeBitIndex, cos)
  else if Bool.eqb bit Disabled then
    if Bit (mask cos) signer =? 0 then
      let cos1 := mkCosigners (keys cos) (SetBit (mask cos) signer 1)
                              (aggr cos) (policy cos) in
      match keys cos !! Z.to_nat signer with
      | Some k => (Ret tt, mkCosigners (keys cos1) (mask cos1)
                                       (ge_Sub (aggr cos1) k) (policy cos1))
      | None => (Panic IndexOutOfRange, cos1)
      end
    else (Ret tt, cos)
  else
    if Bit (mask cos) signer =? 1 then
      let cos1 := mkCosigners (keys cos) (SetBit (mask cos) signer 0)
                              (aggr cos) (policy cos) in
      match keys cos !! Z.to_nat signer with
      | Some k => (Ret tt, mkCosigners (keys cos1) (mask cos1)
                                       (ge_Add (aggr cos1) k) (policy cos1))
      | None => (Panic IndexOutOfRange, cos1)
      end
    else (Ret tt, cos).

(** A sequence of [SetMaskBit] calls, stopping at the first panic. *)
Fixpoint SetMaskBits (ops : list (Z * MaskBit)) (cos : Cosigners)
  : outcome unit * Cosigners :=
  match ops with
  | [] => (Ret tt, cos)
  | (signer, bit) :: ops' =>
      match SetMaskBit signer bit cos with
      | (Ret _, cos') => SetMaskBits ops' cos'
      | (Panic p, cos') => (Panic p, cos')
      end
  end.

(** The loop of [NewCosigners]; [publicKeyBytes] is the one buffer that
    every key is copied into. *)
Fixpoint NewCosigners_loop (publicKeyBytes : list byte)
         (publicKeys : list (list byte)) : option (list ge) :=
  match publicKeys with
  | [] => Some []
  | publicKey :: rest =>
      let publicKeyBytes := copy publicKeyBytes publicKey in
      match ge_FromBytes publicKeyBytes with
      | None => None
      | Some k =>
          match NewCosigners_loop publicKeyBytes rest with
          | None => None
          | Some ks => Some (k :: ks)
          end
      end
  end.

(** [NewCosigners]; [None] is the nil result.  The mask and the aggregate
    of the fresh object are rebuilt by [SetMask(nil)]. *)
Definition NewCosigners (publicKeys : list (list byte)) : option Cosigners :=
  match NewCosigners_loop (zeros 32) publicKeys with
  | None => None
  | Some ks => Some (SetMask [] (mkCosigners ks 0 ge_Zero fullPolicy))
  end.

Definition SetPolicy (p : Policy) (cos : Cosigners) : Cosigners :=
  mkCosigners (keys cos) (mask cos) (aggr cos) p.

Definition AggregatePublicKey (cos : Cosigners) : list byte :=
  ge_ToBytes (aggr cos).

(** *** One-time secrets: Commit and Cosign *)

(** [Commit(rand)]: [rnd] is what [io.ReadFull] put into the 64-byte
    buffer, or [None] when the reader failed.  The result is the error
    case [None] or the commit with its secret. *)
Definition Commit (rnd : option (list byte)) : option (list byte * Secret) :=
  match rnd with
  | None => None
  | Some bytes =>
      let secretFull := copy (zeros 64) bytes in
      let secret := mkSecret (ScReduce secretFull) true in
      let R := GeScalarMultBase (reduced secret) in
      let encodedR := ge_ToBytes R in
      Some (encodedR, secret)
  end.

(** [Cosign].  The hash object [h] is the list of the bytes written to it
    since the last [Reset]; [h.Sum] is [sha512] of that list. *)
Definition Cosign (privateKey : list byte) (secret : Secret)
           (message aggregateK aggregateR : list byte)
  : outcome (list byte) * Secret :=
  if negb (length privateKey =? PrivateKeySize)%nat
  then (Panic (BadPrivateKeyLength (length privateKey)), secret)
  else if negb (length aggregateR =? PublicKeySize)%nat
  then (Panic (BadAggregateRLength (length aggregateR)), secret)
  else if negb (valid secret)
  then (Panic SecretReused, secret)
  else
    let h := [] ++ firstn 32 privateKey in
    let digest1 := copy (zeros 64) (sha512 h) in
    let expandedSecretKey := copy (zeros 32) digest1 in
    let expandedSecretKey :=
      alter (fun b => byte.and b (byte.of_Z 248)) 0%nat expandedSecretKey in
    let expandedSecretKey :=
      alter (fun b => byte.and b (byte.of_Z 63)) 31%nat expandedSecretKey in
    let expandedSecretKey :=
      alter (fun b => byte_or b (byte.of_Z 64)) 31%nat expandedSecretKey in
    let h := (([] ++ aggregateR) ++ aggregateK) ++ message in
    let hramDigest := copy (zeros 64) (sha512 h) in
    let hramDigestReduced := ScReduce hramDigest in
    let s := ScMulAdd hramDigestReduced expandedSecretKey (reduced secret) in
    (Ret s, mkSecret (zeros 32) false).

(** *** Leader aggregation *)

(** The loop of [AggregateCommit]; [Ret None] is the nil result and
    [commits[i]] panics out of range. *)
Fixpoint AggregateCommit_loop (cos : Cosigners) (commits : list (list byte))
         (i : nat) (ks : list ge) (commitBytes : list byte) (aggR : ge)
  : outcome (option ge) :=
  match ks with
  | [] => Ret (Some aggR)
  | _ :: ks' =>
      if Bool.eqb (maskBitAt cos i) Disabled
      then AggregateCommit_loop cos commits (S i) ks' commitBytes aggR
      else
        match commits !! i with
        | None => Panic IndexOutOfRange
        | Some c =>
            if negb (length c =? PublicKeySize)%nat then Ret None
            else
              let commitBytes := copy commitBytes c in
              match ge_FromBytes commitBytes with
              | None => Ret None
              | Some indivR =>
                  AggregateCommit_loop cos commits (S i) ks' commitBytes
                                       (ge_Add aggR indivR)
              end
        end
  end.

Definition AggregateCommit (cos : Cosigners) (commits : list (list byte))
  : outcome (option (list byte)) :=
  match AggregateCommit_loop cos commits 0 (keys cos) (zeros 32) ge_Zero with
  | Panic p => Panic p
  | Ret None => Ret None
  | Ret (Some aggR) => Ret (Some (ge_ToBytes aggR))
  end.

(** The loop of [AggregateSignature]. *)
Fixpoint AggregateSignature_loop (cos : Cosigners) (sigParts : list (list byte))
         (i : nat) (ks : list ge) (aggS indivS : list byte)
  : outcome (option (list byte)) :=
  match ks with
  | [] => Ret (Some aggS)
  | _ :: ks' =>
      if Bool.eqb (maskBitAt cos i) Disabled
      then AggregateSignature_loop cos sigParts (S i) ks' aggS indivS
      else
        match sigParts !! i with
        | None => Panic IndexOutOfRange
        | Some part =>
            if negb (length part =? 32)%nat then Ret None
            else
              let indivS := copy indivS part in
              let aggS := ScMulAdd aggS scOne indivS in
              AggregateSignature_loop cos sigParts (S i) ks' aggS indivS
        end
  end.

Definition AggregateSignature (cos : Cosigners) (aggregateR : list byte)
           (sigParts : list (list byte)) : outcome (option (list byte)) :=
  if negb (length aggregateR =? PublicKeySize)%nat
  then Panic (BadAggregateRLength (length aggregateR))
  else
    match AggregateSignature_loop cos sigParts 0 (keys cos) (zeros 32) (zeros 32) with
    | Panic p => Panic p
    | Ret None => Ret None
    | Ret (Some aggS) =>
        let mask := Mask cos in
        let cosigSize := (SignatureSize + length mask)%nat in
        let signature := zeros cosigSize in
        let signature := copy signature aggregateR in
        let signature :=
          firstn 32 signature
          ++ copy (firstn 32 (skipn 32 signature)) aggS
          ++ skipn 64 signature in
        let signature :=
          firstn 64 signature ++ copy (skipn 64 signature) mask in
        Ret (Some signature)
    end.

(** *** Verification *)

(** [verify].  [sigA] is passed by value: the two [FeNeg] calls change
    the callee's copy of the point, and the receiver is only read, so the
    set is returned as it came. *)
Definition verify (cos : Cosigners) (message aggR sigR sigS : list byte)
           (sigA : ge) : bool * Cosigners :=
  if negb (length sigR =? 32)%nat
     || negb (length sigS =? 32)%nat
     || match sigS !! 31%nat with
        | Some b => byte_nonzero (byte.and b (byte.of_Z 224))
        | None => false
        end
  then (false, cos)
  else
    let aggK := ge_ToBytes (aggr cos) in
    let h := (([] ++ aggR) ++ aggK) ++ message in
    let digest := copy (zeros 64) (sha512 h) in
    let hReduced := ScReduce digest in
    let sigA := mkGE (FeNeg (geX sigA)) (geY sigA) (geZ sigA) (geT sigA) in
    let sigA := mkGE (geX sigA) (geY sigA) (geZ sigA) (FeNeg (geT sigA)) in
    let b := copy (zeros 32) sigS in
    let projR := GeDoubleScalarMultVartime hReduced sigA b in
    let checkR := pge_ToBytes projR in
    (ConstantTimeCompare sigR checkR =? 1, cos).

(** [VerifyPart]: [cos.keys[signer]] panics out of range. *)
Definition VerifyPart (cos : Cosigners) (message aggR : list byte)
           (signer : Z) (indR indS : list byte) : outcome bool * Cosigners :=
  if signer <? 0 then (Panic IndexOutOfRange, cos)
  else
    match keys cos !! Z.to_nat signer with
    | None => (Panic IndexOutOfRange, cos)
    | Some k =>
        let '(ok, cos') := verify cos message aggR indR indS k in
        (Ret ok, cos')
    end.

(** [Verify]. *)
Definition Verify (cos : Cosigners) (message sig : list byte)
  : bool * Cosigners :=
  let cosigSize := (SignatureSize + MaskLen cos)%nat in
  if negb (length sig =? cosigSize)%nat then (false, cos)
  else
    let cos := SetMask (skipn 64 sig) cos in
    if negb (Check (policy cos) cos) then (false, cos)
    else verify cos message (firstn 32 sig) (firstn 32 sig)
                (firstn 32 (skipn 32 sig)) (aggr cos).

(** *** The cache invariant and the sums the specification speaks of *)

Definition ge_sum (l : list ge) : ge := fold_left ge_Add l ge_Zero.

(** The literal sum of the keys whose mask bit is clear. *)
Definition enabled_sum (cos : Cosigners) : ge :=
  ge_sum (pick_enabled (mask cos) 0 (keys cos)).

Definition aggr_ok (cos : Cosigners) : Prop :=
  ge_eqv (aggr cos) (enabled_sum cos).

(** Every set bit of the mask belongs to a cosigner. *)
Definition mask_in_range (cos : Cosigners) : Prop :=
  forall j : Z, Z.testbit (mask cos) j = true ->
                0 <= j < Z.of_nat (length (keys cos)).

(** The Ed25519 clamp on a 32-byte scalar, as the specification words it:
    byte 0 loses its low three bits, byte 31 loses its top two bits and
    gets bit 6. *)
Definition clamp (a : list byte) : list byte :=
  imap (fun i b =>
          if (i =? 0)%nat then byte.of_Z (Z.land (byte.unsigned b) 248)
          else if (i =? 31)%nat
               then byte.of_Z (Z.lor (Z.land (byte.unsigned b) 63) 64)
               else b) a.

(** The sum modulo [ell] of the scalars in a list of 32-byte shares. *)
Definition scalar_sum (parts : list (list byte)) : Z :=
  fold_right Z.add 0 (map le_combine parts) mod ell.

(** An entry that [AggregateCommit] accepts. *)
Definition decodes (c : list byte) : bool :=
  (length c =? 32)%nat && match ge_FromBytes c with Some _ => true | None => false end.

(** The points of the entries that decode, in order. *)
Fixpoint decode_all (cs : list (list byte)) : list ge :=
  match cs with
  | [] => []
  | c :: cs' =>
      match ge_FromBytes c with
      | Some p => p :: decode_all cs'
      | None => decode_all cs'
      end
  end.

(** The bits of a packed mask at the indices [n <= i < 8 * len] are zero. *)
Definition trailing_clear (n : nat) (m : list byte) : bool :=
  forallb (fun i => negb (packed_bit m i)) (seq n (8 * length m - n)).

(** *** The pieces of [Cosign] and the shares of a round *)

(** The expanded secret key of [Cosign]: the digest of the first half of
    the private key, copied into 32 bytes and clamped in place. *)
Definition expandedSecretKey (privateKey : list byte) : list byte :=
  let h := [] ++ firstn 32 privateKey in
  let digest1 := copy (zeros 64) (sha512 h) in
  let expandedSecretKey := copy (zeros 32) digest1 in
  let expandedSecretKey :=
    alter (fun b => byte.and b (byte.of_Z 248)) 0%nat expandedSecretKey in
  let expandedSecretKey :=
    alter (fun b => byte.and b (byte.of_Z 63)) 31%nat expandedSecretKey in
  alter (fun b => byte_or b (byte.of_Z 64)) 31%nat expandedSecretKey.

(** The reduced challenge digest of [Cosign] and [verify]. *)
Definition hramDigestReduced (message aggregateK aggregateR : list byte)
  : list byte :=
  let h := (([] ++ aggregateR) ++ aggregateK) ++ message in
  let hramDigest := copy (zeros 64) (sha512 h) in
  ScReduce hramDigest.

(** What a cosigner sends back to the leader: the result of its [Cosign]
    call, nil when the call panicked. *)
Definition cosign_part (message aggregateK aggregateR : list byte)
           (signer : list byte * Secret) : list byte :=
  match fst (Cosign (fst signer) (snd signer) message aggregateK aggregateR) with
  | Ret s => s
  | Panic _ => []
  end.

(** The cosigner that [Cosign] accepts: a 64-byte key and a valid secret. *)
Definition ready (signer : list byte * Secret) : bool :=
  (length (fst signer) =? 64)%nat && valid (snd signer).

(** The point that [verify] hands to the double scalar multiplication. *)
Definition negated (sigA : ge) : ge :=
  mkGE (FeNeg (geX sigA)) (geY sigA) (geZ sigA) (FeNeg (geT sigA)).

(** ** Tactics for boolean comparisons *)

Ltac split_cmp :=
  match goal with
  | |- context [Nat.eqb ?x ?y] => case (Nat.eqb_spec x y); intro
  | |- context [Nat.leb ?x ?y] => case (Nat.leb_spec x y); intro
  | |- context [Nat.ltb ?x ?y] => case (Nat.ltb_spec x y); intro
  | |- context [Z.eqb ?x ?y] => case (Z.eqb_spec x y); intro
  | |- context [Z.ltb ?x ?y] => case (Z.ltb_spec x y); intro
  | |- context [Z.leb ?x ?y] => case (Z.leb_spec x y); intro
  end.

Ltac zbool := repeat split_cmp; try lia.

Ltac bsimpl :=
  cbn [andb orb negb];
  rewrite ?orb_false_r, ?orb_true_r, ?andb_false_r, ?andb_true_r;
  cbn [andb orb negb].

(** ** Bytes, bits and indices *)

Lemma idx_byte_div (i : nat) : idx_byte i = (i / 8)%nat.
Proof.
  unfold idx_byte. rewrite Z.shiftr_div_pow2 by lia.
  change (2 ^ 3) with (Z.of_nat 8). rewrite <- Nat2Z.inj_div. lia.
Qed.

Lemma idx_bit_mod (i : nat) : idx_bit i = Z.of_nat (i mod 8).
Proof.
  unfold idx_bit. change 7 with (Z.ones 3).
  rewrite Z.land_ones by lia. change (2 ^ 3) with (Z.of_nat 8).
  now rewrite <- Nat2Z.inj_mod.
Qed.

Lemma idx_bit_range (i : nat) : 0 <= idx_bit i < 8.
Proof.
  rewrite idx_bit_mod. pose proof (Nat.mod_upper_bound i 8). lia.
Qed.

Lemma idx_split (i : nat) : Z.of_nat i = 8 * Z.of_nat (idx_byte i) + idx_bit i.
Proof.
  rewrite idx_byte_div, idx_bit_mod.
  pose proof (Nat.div_mod_eq i 8). lia.
Qed.

Lemma idx_join (k : nat) (t : Z) :
  0 <= t < 8 ->
  idx_byte (8 * k + Z.to_nat t) = k /\ idx_bit (8 * k + Z.to_nat t) = t.
Proof.
  intros Ht. rewrite idx_byte_div, idx_bit_mod.
  replace (8 * k + Z.to_nat t)%nat with (Z.to_nat t + k * 8)%nat by lia.
  rewrite Nat.div_add, Nat.Div0.mod_add by lia.
  rewrite Nat.div_small, Nat.mod_small by lia. lia.
Qed.

Lemma testbit_of_Z (z t : Z) :
  Z.testbit (byte.unsigned (byte.of_Z z)) t = (t <? 8) && Z.testbit z t.
Proof.
  rewrite byte.unsigned_of_Z. unfold byte.wrap.
  apply Z.testbit_mod_pow2. lia.
Qed.

Lemma testbit_unsigned_high (b : byte) (t : Z) :
  8 <= t -> Z.testbit (byte.unsigned b) t = false.
Proof.
  intros Ht. rewrite <- byte.wrap_unsigned. unfold byte.wrap.
  rewrite Z.testbit_mod_pow2 by lia.
  destruct (Z.ltb_spec t 8); [lia | reflexivity].
Qed.

Lemma byte_ext (a b : byte) :
  (forall t, 0 <= t < 8 ->
             Z.testbit (byte.unsigned a) t = Z.testbit (byte.unsigned b) t) ->
  a = b.
Proof.
  intros H. apply byte.unsigned_inj, Z.bits_inj'. intros t Ht.
  destruct (Z.lt_ge_cases t 8) as [Hlt|Hge].
  - apply H. lia.
  - now rewrite !testbit_unsigned_high.
Qed.

Lemma testbit_byte_and (a b : byte) (t : Z) :
  Z.testbit (byte.unsigned (byte.and a b)) t =
  Z.testbit (byte.unsigned a) t && Z.testbit (byte.unsigned b) t.
Proof.
  unfold byte.and. rewrite testbit_of_Z, Z.land_spec.
  destruct (Z.ltb_spec t 8); [reflexivity|].
  now rewrite testbit_unsigned_high.
Qed.

Lemma testbit_byte_or (a b : byte) (t : Z) :
  Z.testbit (byte.unsigned (byte_or a b)) t =
  Z.testbit (byte.unsigned a) t || Z.testbit (byte.unsigned b) t.
Proof.
  unfold byte_or. rewrite testbit_of_Z, Z.lor_spec.
  destruct (Z.ltb_spec t 8); [reflexivity|].
  now rewrite !testbit_unsigned_high.
Qed.

Lemma testbit_byte_shl1 (k t : Z) :
  0 <= k < 8 -> Z.testbit (byte.unsigned (byte_shl1 k)) t = (k =? t).
Proof.
  intros Hk. unfold byte_shl1. rewrite testbit_of_Z, Z.shiftl_1_l.
  rewrite Z.pow2_bits_eqb by lia.
  destruct (Z.eqb_spec k t), (Z.ltb_spec t 8); try reflexivity; lia.
Qed.

Lemma byte_nonzero_and_shl1 (b : byte) (k : Z) :
  0 <= k < 8 ->
  byte_nonzero (byte.and b (byte_shl1 k)) = Z.testbit (byte.unsigned b) k.
Proof.
  intros Hk. unfold byte_nonzero.
  assert (E : byte.unsigned (byte.and b (byte_shl1 k)) =
              if Z.testbit (byte.unsigned b) k then 2 ^ k else 0).
  { apply Z.bits_inj'. intros t Ht.
    rewrite testbit_byte_and, testbit_byte_shl1 by lia.
    destruct (Z.eqb_spec k t) as [->|Hne].
    - destruct (Z.testbit (byte.unsigned b) t) eqn:E.
      + now rewrite Z.pow2_bits_true.
      + now rewrite Z.bits_0.
    - rewrite andb_false_r.
      destruct (Z.testbit (byte.unsigned b) k).
      + now rewrite Z.pow2_bits_false.
      + now rewrite Z.bits_0. }
  rewrite E. destruct (Z.testbit (byte.unsigned b) k).
  - assert (0 < 2 ^ k) by (apply Z.pow_pos_nonneg; lia).
    destruct (Z.eqb_spec (2 ^ k) 0); [lia | reflexivity].
  - reflexivity.
Qed.

Lemma packed_bit_testbit (m : list byte) (i : nat) :
  packed_bit m i =
  match m !! idx_byte i with
  | Some b => Z.testbit (byte.unsigned b) (idx_bit i)
  | None => false
  end.
Proof.
  unfold packed_bit. destruct (m !! idx_byte i); [|reflexivity].
  apply byte_nonzero_and_shl1, idx_bit_range.
Qed.

Lemma length_zeros (n : nat) : length (zeros n) = n.
Proof. apply length_replicate. Qed.

Lemma lookup_zeros (n k : nat) (b : byte) : zeros n !! k = Some b -> b = Byte.x00.
Proof.
  unfold zeros. intros H. apply lookup_replicate in H. tauto.
Qed.

Lemma length_copy (dst src : list byte) : length (copy dst src) = length dst.
Proof.
  unfold copy. rewrite length_app, length_take, length_drop. lia.
Qed.

Lemma copy_same_length (dst src : list byte) :
  length src = length dst -> copy dst src = src.
Proof.
  intros H. unfold copy. rewrite <- H, firstn_all.
  rewrite skipn_all2 by lia. apply app_nil_r.
Qed.

Lemma copy_short (dst src : list byte) :
  (length dst <= length src)%nat -> copy dst src = firstn (length dst) src.
Proof.
  intros H. unfold copy. rewrite skipn_all2 by lia. apply app_nil_r.
Qed.

(** ** The mask: SetMask, Mask and MaskBit *)

Lemma testbit_SetBit_1 (x i j : Z) :
  0 <= i -> Z.testbit (SetBit x i 1) j = (i =? j) || Z.testbit x j.
Proof. intros Hi. unfold SetBit. simpl. now apply Z.setbit_eqb. Qed.

Lemma testbit_SetBit_0 (x i j : Z) :
  Z.testbit (SetBit x i 0) j = Z.testbit x j && negb (i =? j).
Proof. unfold SetBit. simpl. apply Z.clearbit_eqb. Qed.

Lemma Bit_eq_0 (x i : Z) : (Bit x i =? 0) = negb (Z.testbit x i).
Proof. unfold Bit. now destruct (Z.testbit x i). Qed.

Lemma Bit_eq_1 (x i : Z) : (Bit x i =? 1) = Z.testbit x i.
Proof. unfold Bit. now destruct (Z.testbit x i). Qed.

Lemma Bit_pos (x i : Z) : (0 <? Bit x i) = Z.testbit x i.
Proof. unfold Bit. now destruct (Z.testbit x i). Qed.

Lemma maskBitAt_testbit (cos : Cosigners) (i : nat) :
  maskBitAt cos i = Z.testbit (mask cos) (Z.of_nat i).
Proof. unfold maskBitAt. rewrite Bit_eq_0. apply negb_involutive. Qed.

Lemma SetMask_loop_mask (m : list byte) (ks : list ge) :
  forall (i : nat) (mk : Z) (ag : ge) (j : Z),
    Z.testbit (fst (SetMask_loop m i ks mk ag)) j =
    Z.testbit mk j
    || ((Z.of_nat i <=? j) && (j <? Z.of_nat (i + length ks))
        && packed_bit m (Z.to_nat j)).
Proof.
  induction ks as [|k ks IH]; intros i mk ag j; cbn [SetMask_loop length].
  - cbn [fst]. zbool; bsimpl; reflexivity.
  - destruct (packed_bit m i) eqn:Hp; rewrite IH.
    + rewrite testbit_SetBit_1 by lia.
      destruct (Z.eq_dec (Z.of_nat i) j) as [<-|Hne].
      * rewrite Nat2Z.id, Hp. zbool; bsimpl; reflexivity.
      * zbool; bsimpl; reflexivity.
    + destruct (Z.eq_dec (Z.of_nat i) j) as [<-|Hne].
      * rewrite Nat2Z.id, Hp. zbool; bsimpl; reflexivity.
      * zbool; bsimpl; reflexivity.
Qed.

Lemma SetMask_loop_aggr (m : list byte) (ks : list ge) :
  forall (i : nat) (mk : Z) (ag : ge),
    (forall j, Z.of_nat i <= j -> Z.testbit mk j = false) ->
    snd (SetMask_loop m i ks mk ag) =
    fold_left ge_Add (pick_enabled (fst (SetMask_loop m i ks mk ag)) i ks) ag.
Proof.
  induction ks as [|k ks IH]; intros i mk ag Hmk; [reflexivity|].
  cbn [pick_enabled].
  rewrite SetMask_loop_mask. cbn [SetMask_loop].
  destruct (packed_bit m i) eqn:Hp.
  - rewrite Nat2Z.id, Hp, Hmk by lia.
    replace (Z.of_nat i <=? Z.of_nat i) with true by (symmetry; apply Z.leb_le; lia).
    replace (Z.of_nat i <? Z.of_nat (i + length (k :: ks))) with true
      by (symmetry; apply Z.ltb_lt; simpl; lia).
    simpl. apply IH. intros j Hj. rewrite testbit_SetBit_1 by lia.
    rewrite Hmk by lia. destruct (Z.eqb_spec (Z.of_nat i) j); [lia | reflexivity].
  - rewrite Nat2Z.id, Hp, Hmk by lia. rewrite andb_false_r. simpl.
    apply IH. intros j Hj. apply Hmk. lia.
Qed.

Lemma keys_SetMask (m : list byte) (cos : Cosigners) :
  keys (SetMask m cos) = keys cos.
Proof.
  unfold SetMask. now destruct (SetMask_loop m 0 (keys cos) 0 ge_Zero).
Qed.

Lemma policy_SetMask (m : list byte) (cos : Cosigners) :
  policy (SetMask m cos) = policy cos.
Proof.
  unfold SetMask. now destruct (SetMask_loop m 0 (keys cos) 0 ge_Zero).
Qed.

Lemma mask_SetMask (m : list byte) (cos : Cosigners) :
  mask (SetMask m cos) = fst (SetMask_loop m 0 (keys cos) 0 ge_Zero).
Proof.
  unfold SetMask. now destruct (SetMask_loop m 0 (keys cos) 0 ge_Zero).
Qed.

Lemma aggr_SetMask (m : list byte) (cos : Cosigners) :
  aggr (SetMask m cos) = snd (SetMask_loop m 0 (keys cos) 0 ge_Zero).
Proof.
  unfold SetMask. now destruct (SetMask_loop m 0 (keys cos) 0 ge_Zero).
Qed.

(** The internal bit [j] after [SetMask(m)]: set exactly for the
    cosigners whose packed bit is set. *)
Lemma testbit_SetMask (m : list byte) (cos : Cosigners) (j : Z) :
  Z.testbit (mask (SetMask m cos)) j =
  (0 <=? j) && (j <? Z.of_nat (length (keys cos))) && packed_bit m (Z.to_nat j).
Proof.
  rewrite mask_SetMask, SetMask_loop_mask, Z.bits_0. reflexivity.
Qed.

(** [SetMask] rebuilds the aggregate as the literal sum. *)
Lemma aggr_SetMask_sum (m : list byte) (cos : Cosigners) :
  aggr (SetMask m cos) = enabled_sum (SetMask m cos).
Proof.
  unfold enabled_sum, ge_sum. rewrite keys_SetMask, aggr_SetMask, mask_SetMask.
  apply SetMask_loop_aggr. intros j _. apply Z.bits_0.
Qed.

Lemma MaskLen_div (cos : Cosigners) :
  MaskLen cos = ((length (keys cos) + 7) / 8)%nat.
Proof.
  unfold MaskLen. rewrite Z.shiftr_div_pow2 by lia.
  change (2 ^ 3) with (Z.of_nat 8). rewrite <- Nat2Z.inj_div. lia.
Qed.

(** In [Mask] the index [i>>3] is inside the slice of [MaskLen] bytes. *)
Lemma Mask_index_in_range (cos : Cosigners) (i : nat) :
  (i < length (keys cos))%nat -> (idx_byte i < MaskLen cos)%nat.
Proof.
  intros Hi. rewrite idx_byte_div, MaskLen_div.
  pose proof (Nat.div_mod_eq i 8).
  pose proof (Nat.div_mod_eq (length (keys cos) + 7) 8).
  pose proof (Nat.mod_upper_bound i 8).
  pose proof (Nat.mod_upper_bound (length (keys cos) + 7) 8). lia.
Qed.

Lemma Mask_prefix_spec (cos : Cosigners) (n : nat) :
  let m := fold_left (Mask_step cos) (seq 0 n) (zeros (MaskLen cos)) in
  length m = MaskLen cos /\
  forall (k : nat) (b : byte) (t : Z),
    m !! k = Some b -> 0 <= t < 8 ->
    Z.testbit (byte.unsigned b) t =
    (8 * Z.of_nat k + t <? Z.of_nat n) && Z.testbit (mask cos) (8 * Z.of_nat k + t).
Proof.
  induction n as [|n [IHlen IHbits]]; cbn zeta.
  - split; [apply length_zeros|]. intros k b t Hk Ht.
    apply lookup_zeros in Hk. subst b.
    destruct (Z.ltb_spec (8 * Z.of_nat k + t) (Z.of_nat 0)); [lia|].
    apply Z.bits_0.
  - cbn zeta in IHlen, IHbits.
    rewrite seq_S, fold_left_app. cbn [fold_left Nat.add].
    set (m := fold_left (Mask_step cos) (seq 0 n) (zeros (MaskLen cos))) in *.
    unfold Mask_step. rewrite Bit_pos.
    pose proof (idx_split n) as Hsplit. pose proof (idx_bit_range n) as Hrange.
    destruct (Z.testbit (mask cos) (Z.of_nat n)) eqn:Hbit.
    + split; [now rewrite length_alter|].
      intros k b t Hk Ht. rewrite list_lookup_alter in Hk.
      destruct (decide (idx_byte n = k)) as [<-|Hne].
      * destruct (m !! idx_byte n) as [b0|] eqn:Hb0; [|discriminate].
        injection Hk as <-.
        rewrite testbit_byte_or, testbit_byte_shl1 by lia.
        rewrite (IHbits _ _ t Hb0 Ht).
        destruct (Z.eqb_spec (idx_bit n) t) as [<-|Hne].
        -- rewrite <- Hsplit, Hbit, orb_true_r.
           destruct (Z.ltb_spec (Z.of_nat n) (Z.of_nat (S n))); [reflexivity | lia].
        -- rewrite orb_false_r. f_equal.
           destruct (Z.ltb_spec (8 * Z.of_nat (idx_byte n) + t) (Z.of_nat n)),
                    (Z.ltb_spec (8 * Z.of_nat (idx_byte n) + t) (Z.of_nat (S n)));
             try lia; reflexivity.
      * rewrite (IHbits _ _ t Hk Ht). f_equal.
        destruct (Z.ltb_spec (8 * Z.of_nat k + t) (Z.of_nat n)),
                 (Z.ltb_spec (8 * Z.of_nat k + t) (Z.of_nat (S n)));
          try lia; reflexivity.
    + split; [exact IHlen|].
      intros k b t Hk Ht. rewrite (IHbits _ _ t Hk Ht).
      destruct (Z.eq_dec (8 * Z.of_nat k + t) (Z.of_nat n)) as [E|Hne].
      * rewrite E, Hbit, !andb_false_r. reflexivity.
      * f_equal.
        destruct (Z.ltb_spec (8 * Z.of_nat k + t) (Z.of_nat n)),
                 (Z.ltb_spec (8 * Z.of_nat k + t) (Z.of_nat (S n)));
          try lia; reflexivity.
Qed.

Lemma length_Mask (cos : Cosigners) : length (Mask cos) = MaskLen cos.
Proof. apply (Mask_prefix_spec cos (length (keys cos))). Qed.

(** Bit [t] of byte [k] of [Mask()] is the internal bit [8k+t] of a
    cosigner, and zero past the last cosigner. *)
Lemma testbit_Mask (cos : Cosigners) (k : nat) (b : byte) (t : Z) :
  Mask cos !! k = Some b -> 0 <= t < 8 ->
  Z.testbit (byte.unsigned b) t =
  (8 * Z.of_nat k + t <? Z.of_nat (length (keys cos)))
  && Z.testbit (mask cos) (8 * Z.of_nat k + t).
Proof. apply (Mask_prefix_spec cos (length (keys cos))). Qed.

Lemma packed_bit_Mask (cos : Cosigners) (i : nat) :
  packed_bit (Mask cos) i =
  (i <? length (keys cos))%nat && Z.testbit (mask cos) (Z.of_nat i).
Proof.
  rewrite packed_bit_testbit.
  destruct (Mask cos !! idx_byte i) as [b|] eqn:Hb.
  - rewrite (testbit_Mask _ _ _ _ Hb (idx_bit_range i)), <- idx_split.
    f_equal. destruct (Z.ltb_spec (Z.of_nat i) (Z.of_nat (length (keys cos)))),
                      (Nat.ltb_spec i (length (keys cos))); try lia; reflexivity.
  - apply lookup_ge_None in Hb. rewrite length_Mask in Hb.
    destruct (Nat.ltb_spec i (length (keys cos))) as [Hlt|]; [|reflexivity].
    apply Mask_index_in_range in Hlt. lia.
Qed.

Lemma packed_bit_padded (m : list byte) (n i : nat) :
  packed_bit (m ++ zeros n) i = packed_bit m i.
Proof.
  rewrite !packed_bit_testbit.
  destruct (m !! idx_byte i) as [b|] eqn:Hb.
  - now rewrite (lookup_app_l_Some _ _ _ _ Hb).
  - apply lookup_ge_None in Hb. rewrite lookup_app_r by lia.
    destruct (zeros n !! (idx_byte i - length m)%nat) as [b|] eqn:Hz;
      [|reflexivity].
    apply lookup_zeros in Hz. subst b. apply Z.bits_0.
Qed.

Lemma packed_bit_beyond (m : list byte) (i : nat) :
  (length m <= idx_byte i)%nat -> packed_bit m i = false.
Proof.
  intros H. unfold packed_bit. now rewrite (proj2 (lookup_ge_None _ _) H).
Qed.

Lemma SetMask_loop_ext (m m' : list byte) (ks : list ge) :
  (forall i, packed_bit m i = packed_bit m' i) ->
  forall (i : nat) (mk : Z) (ag : ge),
    SetMask_loop m i ks mk ag = SetMask_loop m' i ks mk ag.
Proof.
  intros H. induction ks as [|k ks IH]; intros i mk ag; [reflexivity|].
  cbn [SetMask_loop]. rewrite H. destruct (packed_bit m' i); apply IH.
Qed.

Lemma SetMask_ext (m m' : list byte) (cos : Cosigners) :
  (forall i, packed_bit m i = packed_bit m' i) -> SetMask m cos = SetMask m' cos.
Proof.
  intros H. unfold SetMask. now rewrite (SetMask_loop_ext m m' _ H).
Qed.

Lemma trailing_clear_spec (n : nat) (m : list byte) :
  trailing_clear n m = true ->
  forall i : nat, (n <= i)%nat -> packed_bit m i = false.
Proof.
  unfold trailing_clear. rewrite forallb_forall. intros H i Hi.
  destruct (Nat.lt_ge_cases i (8 * length m)) as [Hlt|Hge].
  - apply negb_true_iff, H, in_seq. lia.
  - apply packed_bit_beyond. rewrite idx_byte_div.
    apply Nat.div_le_lower_bound; lia.
Qed.

(** [SetMask] then [Mask]: the packed mask comes back bit for bit below
    the number of cosigners, and zero above. *)
Lemma packed_bit_Mask_SetMask (m : list byte) (cos : Cosigners) (i : nat) :
  packed_bit (Mask (SetMask m cos)) i =
  (i <? length (keys cos))%nat && packed_bit m i.
Proof.
  rewrite packed_bit_Mask, keys_SetMask, testbit_SetMask, Nat2Z.id.
  zbool; bsimpl; reflexivity.
Qed.

Lemma packed_bit_inj (m m' : list byte) :
  length m = length m' ->
  (forall i, packed_bit m i = packed_bit m' i) -> m = m'.
Proof.
  intros Hlen H. apply list_eq. intros k.
  destruct (m !! k) as [b|] eqn:Hb.
  - destruct (m' !! k) as [b'|] eqn:Hb'.
    + f_equal. apply byte_ext. intros t Ht.
      specialize (H (8 * k + Z.to_nat t)%nat).
      rewrite !packed_bit_testbit in H.
      destruct (idx_join k t Ht) as [E1 E2].
      now rewrite E1, E2, Hb, Hb' in H.
    + apply lookup_lt_Some in Hb. apply lookup_ge_None in Hb'. lia.
  - destruct (m' !! k) as [b'|] eqn:Hb'; [|reflexivity].
    apply lookup_lt_Some in Hb'. apply lookup_ge_None in Hb. lia.
Qed.

Lemma Mask_SetMask (cos : Cosigners) (m : list byte) :
  length m = MaskLen cos ->
  trailing_clear (length (keys cos)) m = true ->
  Mask (SetMask m cos) = m.
Proof.
  intros Hlen Htrail. apply packed_bit_inj.
  - rewrite length_Mask. unfold MaskLen. rewrite keys_SetMask. now symmetry.
  - intros i. rewrite packed_bit_Mask_SetMask.
    destruct (Nat.ltb_spec i (length (keys cos))) as [Hlt|Hge]; [reflexivity|].
    symmetry. now apply (trailing_clear_spec _ _ Htrail).
Qed.

(** C8. For a mask [m] of exactly [MaskLen] bytes whose bits past the last
    cosigner are zero, [SetMask(m)] followed by [Mask()] returns [m]; and
    when [SetMask] gets a shorter buffer (nil included) it acts as on the
    buffer padded with zero bytes, so every cosigner whose byte is
    missing is Enabled. *)
Theorem SetMask_Mask_roundtrip :
  (forall (cos : Cosigners) (m : list byte),
      length m = ((length (keys cos) + 7) / 8)%nat ->
      trailing_clear (length (keys cos)) m = true ->
      Mask (SetMask m cos) = m)
  /\
  (forall (cos : Cosigners) (m : list byte),
      (length m < (length (keys cos) + 7) / 8)%nat ->
      SetMask m cos
      = SetMask (m ++ zeros ((length (keys cos) + 7) / 8 - length m)) cos
      /\ forall i : nat,
          (i < length (keys cos))%nat -> (length m <= idx_byte i)%nat ->
          maskBitAt (SetMask m cos) i = Enabled).
Proof.
  split.
  - intros cos m Hlen. apply Mask_SetMask. now rewrite MaskLen_div.
  - intros cos m Hshort. split.
    + apply SetMask_ext. intros i. symmetry. apply packed_bit_padded.
    + intros i Hi Hmiss. rewrite maskBitAt_testbit, testbit_SetMask, Nat2Z.id.
      rewrite (packed_bit_beyond _ _ Hmiss). now bsimpl.
Qed.

(** ** The cached aggregate *)

(** The group laws of the curve, up to [ge_eqv]. *)
Context {ge_eqv_equiv : Equivalence ge_eqv}.
Context {ge_Add_proper : Proper (ge_eqv ==> ge_eqv ==> ge_eqv) ge_Add}.
Context {ge_Sub_proper : Proper (ge_eqv ==> eq ==> ge_eqv) ge_Sub}.
Hypothesis ge_Add_assoc :
  forall a b c, ge_eqv (ge_Add (ge_Add a b) c) (ge_Add a (ge_Add b c)).
Hypothesis ge_Add_comm : forall a b, ge_eqv (ge_Add a b) (ge_Add b a).
Hypothesis ge_Sub_Add : forall a b, ge_eqv (ge_Sub (ge_Add a b) b) a.

Collection group_laws :=
  ge_eqv_equiv ge_Add_proper ge_Sub_proper ge_Add_assoc ge_Add_comm ge_Sub_Add.

Lemma fold_Add_proper (l : list ge) (a a' : ge) :
  ge_eqv a a' -> ge_eqv (fold_left ge_Add l a) (fold_left ge_Add l a').
Proof using ge_eqv_equiv ge_Add_proper.
  revert a a'. induction l as [|x l IH]; intros a a' H; [exact H|].
  cbn [fold_left]. apply IH. now rewrite H.
Qed.

Lemma fold_Add_last (l : list ge) (a k : ge) :
  ge_eqv (fold_left ge_Add l (ge_Add a k)) (ge_Add (fold_left ge_Add l a) k).
Proof using ge_eqv_equiv ge_Add_proper ge_Add_assoc ge_Add_comm.
  revert a. induction l as [|x l IH]; intros a; [reflexivity|].
  cbn [fold_left]. rewrite <- IH. apply fold_Add_proper.
  rewrite !ge_Add_assoc. now rewrite (ge_Add_comm k x).
Qed.

Lemma pick_enabled_ext {A} (l : list A) :
  forall (i : nat) (mk mk' : Z),
    (forall j : nat, (i <= j < i + length l)%nat ->
                     Z.testbit mk (Z.of_nat j) = Z.testbit mk' (Z.of_nat j)) ->
    pick_enabled mk i l = pick_enabled mk' i l.
Proof.
  induction l as [|x l IH]; intros i mk mk' H; [reflexivity|].
  cbn [pick_enabled]. rewrite <- (H i) by (simpl; lia).
  rewrite (IH (S i) mk mk') by (intros j Hj; apply H; simpl; lia).
  reflexivity.
Qed.

(** Two masks that differ exactly at bit [s]: the sum with [s] enabled is
    the sum with [s] disabled plus the key of [s]. *)
Lemma sum_toggle (ks : list ge) :
  forall (i : nat) (a : ge) (mk mk' : Z) (s : nat) (k : ge),
    (i <= s)%nat -> ks !! (s - i)%nat = Some k ->
    Z.testbit mk (Z.of_nat s) = false ->
    Z.testbit mk' (Z.of_nat s) = true ->
    (forall j : nat, j <> s ->
                     Z.testbit mk' (Z.of_nat j) = Z.testbit mk (Z.of_nat j)) ->
    ge_eqv (fold_left ge_Add (pick_enabled mk i ks) a)
           (ge_Add (fold_left ge_Add (pick_enabled mk' i ks) a) k).
Proof using ge_eqv_equiv ge_Add_proper ge_Add_assoc ge_Add_comm.
  induction ks as [|x ks IH]; intros i a mk mk' s k His Hk Hoff Hon Hsame;
    [discriminate|].
  cbn [pick_enabled]. destruct (Nat.eq_dec i s) as [->|Hne].
  - rewrite Nat.sub_diag in Hk. injection Hk as ->. rewrite Hoff, Hon.
    rewrite (pick_enabled_ext ks (S s) mk' mk)
      by (intros j Hj; apply Hsame; lia).
    cbn [fold_left]. apply fold_Add_last.
  - rewrite (Hsame i Hne).
    replace (s - i)%nat with (S (s - S i)) in Hk by lia. cbn in Hk.
    destruct (Z.testbit mk (Z.of_nat i)); cbn [fold_left];
      apply (IH (S i) _ mk mk' s k); auto; lia.
Qed.

Lemma pick_enabled_absent (ks : list ge) (mk mk' : Z) (s : nat) :
  ks !! s = None ->
  (forall j : nat, j <> s ->
                   Z.testbit mk' (Z.of_nat j) = Z.testbit mk (Z.of_nat j)) ->
  pick_enabled mk' 0 ks = pick_enabled mk 0 ks.
Proof.
  intros Hs Hsame. apply lookup_ge_None in Hs.
  apply pick_enabled_ext. intros j Hj. apply Hsame. lia.
Qed.

(** [SetMaskBit] keeps the cache in step with the mask, whether it
    returns or panics. *)
Lemma SetMaskBit_aggr_ok (signer : Z) (bit : MaskBit) (cos : Cosigners) :
  aggr_ok cos -> aggr_ok (snd (SetMaskBit signer bit cos)).
Proof using group_laws.
  intros Hok. unfold SetMaskBit.
  destruct (Z.ltb_spec signer 0) as [|Hs]; [exact Hok|].
  rewrite Bit_eq_0, Bit_eq_1.
  set (s := Z.to_nat signer).
  assert (Es : signer = Z.of_nat s) by (unfold s; lia).
  unfold aggr_ok, enabled_sum, ge_sum in *.
  destruct (Bool.eqb bit Disabled);
    destruct (Z.testbit (mask cos) signer) eqn:Hbit; cbn [negb]; try exact Hok.
  - (* disable a cosigner that was enabled *)
    assert (Hsame : forall j : nat, j <> s ->
              Z.testbit (SetBit (mask cos) signer 1) (Z.of_nat j)
              = Z.testbit (mask cos) (Z.of_nat j)).
    { intros j Hj. rewrite testbit_SetBit_1 by lia. zbool; reflexivity. }
    destruct (keys cos !! s) as [k|] eqn:Hk; cbn [snd keys mask aggr].
    + assert (Hsum : ge_eqv
                (fold_left ge_Add (pick_enabled (mask cos) 0 (keys cos)) ge_Zero)
                (ge_Add (fold_left ge_Add
                           (pick_enabled (SetBit (mask cos) signer 1) 0 (keys cos))
                           ge_Zero) k)).
      { apply (sum_toggle (keys cos) 0 ge_Zero _ _ s k); auto.
        - lia.
        - now rewrite Nat.sub_0_r.
        - now rewrite <- Es.
        - rewrite testbit_SetBit_1 by lia. rewrite <- Es. zbool; reflexivity. }
      rewrite Hok, Hsum. apply ge_Sub_Add.
    + now rewrite (pick_enabled_absent _ _ _ s Hk Hsame).
  - (* enable a cosigner that was disabled *)
    assert (Hsame : forall j : nat, j <> s ->
              Z.testbit (mask cos) (Z.of_nat j)
              = Z.testbit (SetBit (mask cos) signer 0) (Z.of_nat j)).
    { intros j Hj. rewrite testbit_SetBit_0. zbool; now bsimpl. }
    destruct (keys cos !! s) as [k|] eqn:Hk; cbn [snd keys mask aggr].
    + rewrite Hok. symmetry.
      apply (sum_toggle (keys cos) 0 ge_Zero _ _ s k); auto.
      * lia.
      * now rewrite Nat.sub_0_r.
      * rewrite testbit_SetBit_0, <- Es. zbool; now bsimpl.
      * now rewrite <- Es.
    + rewrite (pick_enabled_absent _ (mask cos) _ s Hk); [exact Hok|].
      intros j Hj. symmetry. now apply Hsame.
Qed.

Lemma SetMaskBits_aggr_ok (ops : list (Z * MaskBit)) :
  forall cos : Cosigners, aggr_ok cos -> aggr_ok (snd (SetMaskBits ops cos)).
Proof using group_laws.
  induction ops as [|[signer bit] ops IH]; intros cos Hok; [exact Hok|].
  cbn [SetMaskBits].
  pose proof (SetMaskBit_aggr_ok signer bit cos Hok) as Hstep.
  destruct (SetMaskBit signer bit cos) as [[[]|p] cos1]; cbn [snd] in *.
  - now apply IH.
  - exact Hstep.
Qed.

Lemma SetMask_in_range (m : list byte) (cos : Cosigners) :
  mask_in_range (SetMask m cos).
Proof.
  intros j. rewrite testbit_SetMask, keys_SetMask.
  zbool; bsimpl; try discriminate; lia.
Qed.

Lemma SetMaskBit_in_range (signer : Z) (bit : MaskBit) (cos cos' : Cosigners) :
  mask_in_range cos -> SetMaskBit signer bit cos = (Ret tt, cos') ->
  mask_in_range cos'.
Proof.
  intros Hr. unfold SetMaskBit.
  destruct (Z.ltb_spec signer 0) as [|Hs]; [discriminate|].
  destruct (Bool.eqb bit Disabled).
  - destruct (Bit (mask cos) signer =? 0); [|now intros [= <-]].
    destruct (keys cos !! Z.to_nat signer) as [k|] eqn:Hk; [|discriminate].
    intros [= <-] j. cbn [mask keys]. rewrite testbit_SetBit_1 by lia.
    apply lookup_lt_Some in Hk.
    destruct (Z.eqb_spec signer j) as [<-|]; [lia|]. apply Hr.
  - destruct (Bit (mask cos) signer =? 1); [|now intros [= <-]].
    destruct (keys cos !! Z.to_nat signer) as [k|] eqn:Hk; [|discriminate].
    intros [= <-] j. cbn [mask keys]. rewrite testbit_SetBit_0.
    intros [H _]%andb_true_iff. now apply Hr.
Qed.

Lemma SetMaskBits_in_range (ops : list (Z * MaskBit)) :
  forall cos cos' : Cosigners,
    mask_in_range cos -> SetMaskBits ops cos = (Ret tt, cos') ->
    mask_in_range cos'.
Proof.
  induction ops as [|[signer bit] ops IH]; intros cos cos' Hr; cbn [SetMaskBits].
  - now intros [= <-].
  - destruct (SetMaskBit signer bit cos) as [[[]|p] cos1] eqn:Hstep;
      [|discriminate].
    apply IH. eapply SetMaskBit_in_range; eauto.
Qed.

(** Repacking the mask and setting it again rebuilds the same mask. *)
Lemma mask_SetMask_Mask (cos : Cosigners) :
  mask_in_range cos -> mask (SetMask (Mask cos) cos) = mask cos.
Proof.
  intros Hr. apply Z.bits_inj'. intros j Hj.
  rewrite testbit_SetMask, packed_bit_Mask, Z2Nat.id by lia.
  destruct (Z.testbit (mask cos) j) eqn:Hbit.
  - apply Hr in Hbit. zbool; reflexivity.
  - now bsimpl.
Qed.

Lemma enabled_sum_SetMask_Mask (cos : Cosigners) :
  enabled_sum (SetMask (Mask cos) cos) = enabled_sum cos.
Proof.
  unfold enabled_sum. rewrite keys_SetMask. f_equal.
  apply pick_enabled_ext. intros j Hj.
  rewrite testbit_SetMask, packed_bit_Mask, Nat2Z.id.
  zbool; bsimpl; reflexivity.
Qed.

(** C1. The cached aggregate is the literal sum of the enabled keys after
    construction, after [SetMask] and after [SetMaskBit]; and after any
    sequence of completed [SetMaskBit] calls from any starting mask it is
    the aggregate that [SetMask] recomputes for the packed mask [Mask()],
    which describes the same internal mask. *)
Theorem aggr_cache_invariant :
  (forall (publicKeys : list (list byte)) (cos : Cosigners),
      NewCosigners publicKeys = Some cos -> aggr_ok cos)
  /\ (forall (m : list byte) (cos : Cosigners), aggr_ok (SetMask m cos))
  /\ (forall (signer : Z) (bit : MaskBit) (cos : Cosigners),
         aggr_ok cos -> aggr_ok (snd (SetMaskBit signer bit cos)))
  /\ (forall (m0 : list byte) (cos0 : Cosigners) (ops : list (Z * MaskBit))
             (cos' : Cosigners),
         SetMaskBits ops (SetMask m0 cos0) = (Ret tt, cos') ->
         mask (SetMask (Mask cos') cos') = mask cos'
         /\ ge_eqv (aggr cos') (aggr (SetMask (Mask cos') cos'))).
Proof using group_laws.
  assert (HSet : forall m cos, aggr_ok (SetMask m cos)).
  { intros m cos. unfold aggr_ok. now rewrite <- aggr_SetMask_sum. }
  split; [|split; [|split]].
  - intros pks cos. unfold NewCosigners.
    destruct (NewCosigners_loop (zeros 32) pks); [|discriminate].
    intros [= <-]. apply HSet.
  - exact HSet.
  - apply SetMaskBit_aggr_ok.
  - intros m0 cos0 ops cos' Hrun. split.
    + apply mask_SetMask_Mask.
      eapply SetMaskBits_in_range; [apply SetMask_in_range | exact Hrun].
    + pose proof (SetMaskBits_aggr_ok ops _ (HSet m0 cos0)) as Hok.
      rewrite Hrun in Hok. cbn [snd] in Hok. unfold aggr_ok in Hok.
      now rewrite aggr_SetMask_sum, enabled_sum_SetMask_Mask.
Qed.

(** ** Cosign *)

Lemma unsigned_byte_and (a b : byte) :
  byte.unsigned (byte.and a b) = Z.land (byte.unsigned a) (byte.unsigned b).
Proof.
  apply Z.bits_inj'. intros t _. now rewrite testbit_byte_and, Z.land_spec.
Qed.

Lemma ell_pos : 0 < ell.
Proof. reflexivity. Qed.

Lemma ell_lt_2_253 : ell < 2 ^ 253.
Proof. reflexivity. Qed.

Lemma le_combine_split_mod_ell (z : Z) :
  le_combine (le_split 32 (z mod ell)) = z mod ell.
Proof.
  rewrite le_combine_split. apply Z.mod_small.
  pose proof (Z.mod_pos_bound z ell ell_pos).
  assert (ell < 2 ^ (Z.of_nat 32 * 8)) by reflexivity. lia.
Qed.

Lemma le_combine_ScReduce (s : list byte) :
  le_combine (ScReduce s) = le_combine s mod ell.
Proof. apply le_combine_split_mod_ell. Qed.

Lemma le_combine_ScMulAdd (a b c : list byte) :
  le_combine (ScMulAdd a b c) =
  (le_combine a * le_combine b + le_combine c) mod ell.
Proof. apply le_combine_split_mod_ell. Qed.

Lemma length_ScMulAdd (a b c : list byte) : length (ScMulAdd a b c) = 32%nat.
Proof. apply length_le_split. Qed.

Lemma length_ScReduce (s : list byte) : length (ScReduce s) = 32%nat.
Proof. apply length_le_split. Qed.

(** The three in-place byte operations of [Cosign] are the clamp. *)
Lemma clamp_in_place (l : list byte) :
  alter (fun b => byte_or b (byte.of_Z 64)) 31%nat
        (alter (fun b => byte.and b (byte.of_Z 63)) 31%nat
               (alter (fun b => byte.and b (byte.of_Z 248)) 0%nat l))
  = clamp l.
Proof.
  apply list_eq. intros i. unfold clamp.
  rewrite list_lookup_imap, !list_lookup_alter.
  repeat case_decide; subst; try lia; destruct (l !! _) as [b|];
    try reflexivity; cbn.
  - f_equal. unfold byte_or. now rewrite unsigned_byte_and.
  - destruct (Nat.eqb_spec i 0); [congruence|].
    destruct (Nat.eqb_spec i 31); [congruence|]. reflexivity.
Qed.

Hypothesis sha512_length : forall m : list byte, length (sha512 m) = 64%nat.

Lemma Cosign_body (privateKey : list byte) (secret : Secret)
      (message aggregateK aggregateR : list byte) :
  length privateKey = 64%nat -> length aggregateR = 32%nat ->
  valid secret = true ->
  Cosign privateKey secret message aggregateK aggregateR =
  (Ret (ScMulAdd (ScReduce (sha512 (aggregateR ++ aggregateK ++ message)))
                 (clamp (firstn 32 (sha512 (firstn 32 privateKey))))
                 (reduced secret)),
   mkSecret (zeros 32) false).
Proof using sha512_length.
  intros Hpk HR Hv. unfold Cosign, PrivateKeySize, PublicKeySize.
  rewrite Hpk, HR, Hv. cbn [Nat.eqb negb].
  rewrite !app_nil_l, <- app_assoc.
  rewrite !(copy_same_length (zeros 64))
    by (now rewrite sha512_length, length_zeros).
  rewrite copy_short by (rewrite sha512_length, length_zeros; lia).
  rewrite length_zeros, clamp_in_place. reflexivity.
Qed.

(** C3. With a 64-byte private key, a valid secret holding [r] and
    32-byte aggregates, [Cosign] returns the 32-byte little-endian
    encoding of [h * a + r mod ell], where [a] is the clamped first half of
    SHA-512 of the key's first 32 bytes and [h] is SHA-512 of
    [aggregateR ++ aggregateK ++ message] reduced modulo [ell]. *)
Theorem Cosign_share
        (privateKey : list byte) (secret : Secret)
        (message aggregateK aggregateR : list byte) :
  length privateKey = 64%nat -> valid secret = true ->
  length aggregateK = 32%nat -> length aggregateR = 32%nat ->
  let a := le_combine (clamp (firstn 32 (sha512 (firstn 32 privateKey)))) in
  let h := le_combine (sha512 (aggregateR ++ aggregateK ++ message)) mod ell in
  let r := le_combine (reduced secret) in
  let s := le_split 32 ((h * a + r) mod ell) in
  fst (Cosign privateKey secret message aggregateK aggregateR) = Ret s
  /\ length s = 32%nat
  /\ le_combine s = (h * a + r) mod ell
  /\ 0 <= le_combine s < ell.
Proof using sha512_length.
  intros Hpk Hv HK HR a h r s.
  rewrite (Cosign_body _ _ _ _ _ Hpk HR Hv). cbn [fst].
  assert (Hs : le_combine s = (h * a + r) mod ell)
    by apply le_combine_split_mod_ell.
  split; [|split; [|split]].
  - unfold ScMulAdd. now rewrite le_combine_ScReduce.
  - apply length_le_split.
  - exact Hs.
  - rewrite Hs. apply Z.mod_pos_bound, ell_pos.
Qed.

(** A secret that is not valid makes [Cosign] panic, whatever the other
    arguments are. *)
Lemma Cosign_invalid_secret
      (privateKey : list byte) (secret : Secret)
      (message aggregateK aggregateR : list byte) :
  valid secret = false ->
  returns (fst (Cosign privateKey secret message aggregateK aggregateR)) = false.
Proof.
  intros Hv. unfold Cosign. rewrite Hv.
  destruct (negb (length privateKey =? PrivateKeySize)%nat); [reflexivity|].
  destruct (negb (length aggregateR =? PublicKeySize)%nat); reflexivity.
Qed.

(** C4, as the code has it. [Cosign] panics exactly when the private key
    is not 64 bytes, the aggregate commit is not 32 bytes, or the secret
    is not valid; the length of the aggregate public key is not looked
    at. *)
Theorem Cosign_panics_iff
        (privateKey : list byte) (secret : Secret)
        (message aggregateK aggregateR : list byte) :
  returns (fst (Cosign privateKey secret message aggregateK aggregateR)) = false
  <-> (length privateKey <> 64%nat \/ length aggregateR <> 32%nat
       \/ valid secret = false).
Proof.
  unfold Cosign, PrivateKeySize, PublicKeySize.
  destruct (Nat.eqb_spec (length privateKey) 64) as [Hpk|Hpk]; cbn [negb].
  2: { cbn. tauto. }
  destruct (Nat.eqb_spec (length aggregateR) 32) as [HR|HR]; cbn [negb].
  2: { cbn. tauto. }
  destruct (valid secret); cbn.
  - split; [discriminate|]. intros [?|[?|?]]; congruence.
  - tauto.
Qed.

(** C2, as the code has it. A [Cosign] call that returns leaves the
    secret zeroed and invalid; a call that panics leaves the secret as it
    was; and once a secret has produced a share, every later [Cosign] on
    it panics, so it never produces a second share. *)
Theorem Cosign_consumes_secret
        (privateKey : list byte) (secret : Secret)
        (message aggregateK aggregateR : list byte) :
  (forall s secret',
      Cosign privateKey secret message aggregateK aggregateR = (Ret s, secret') ->
      secret' = mkSecret (zeros 32) false
      /\ forall privateKey2 message2 aggregateK2 aggregateR2,
          returns (fst (Cosign privateKey2 secret' message2
                               aggregateK2 aggregateR2)) = false)
  /\ (forall p secret',
         Cosign privateKey secret message aggregateK aggregateR = (Panic p, secret') ->
         secret' = secret).
Proof.
  unfold Cosign at 1 3.
  destruct (negb (length privateKey =? PrivateKeySize)%nat);
    [split; [discriminate | now intros p s' [= _ <-]]|].
  destruct (negb (length aggregateR =? PublicKeySize)%nat);
    [split; [discriminate | now intros p s' [= _ <-]]|].
  destruct (negb (valid secret));
    [split; [discriminate | now intros p s' [= _ <-]]|].
  split; [|discriminate].
  intros s secret' [= _ <-]. split; [reflexivity|].
  intros pk2 m2 K2 R2. now apply Cosign_invalid_secret.
Qed.

(** ** Aggregation by the leader *)

Lemma le_combine_scOne : le_combine scOne = 1.
Proof. reflexivity. Qed.

Lemma le_combine_zeros (n : nat) : le_combine (zeros n) = 0.
Proof.
  unfold zeros. induction n as [|n IH]; [reflexivity|].
  change (replicate (S n) Byte.x00) with (Byte.x00 :: replicate n Byte.x00).
  change (le_combine (Byte.x00 :: replicate n Byte.x00))
    with (Z.lor (byte.unsigned Byte.x00)
                (Z.shiftl (le_combine (replicate n Byte.x00)) 8)).
  rewrite IH. reflexivity.
Qed.

Lemma skipn_cons_lookup {A} (l : list A) (i : nat) (x : A) (r : list A) :
  skipn i l = x :: r -> l !! i = Some x /\ skipn (S i) l = r.
Proof.
  revert i. induction l as [|y l IH]; intros [|i] H; cbn in *;
    try discriminate.
  - now injection H as -> ->.
  - now apply IH.
Qed.

Lemma scalar_sum_cons (p : list byte) (ps : list (list byte)) :
  scalar_sum (p :: ps) = (le_combine p + scalar_sum ps) mod ell.
Proof.
  unfold scalar_sum. cbn [map fold_right].
  now rewrite Z.add_mod_idemp_r by (pose proof ell_pos; lia).
Qed.

(** The loop of [AggregateSignature] when every enabled part has 32
    bytes: the accumulator gains the enabled scalars, modulo [ell]. *)
Lemma AggregateSignature_loop_sum (cos : Cosigners) (sigParts : list (list byte))
      (ks : list ge) :
  forall (i : nat) (rest : list (list byte)) (aggS indivS : list byte),
    skipn i sigParts = rest -> length rest = length ks ->
    length indivS = 32%nat -> length aggS = 32%nat ->
    Forall (fun p => length p = 32%nat) (pick_enabled (mask cos) i rest) ->
    exists aggS',
      AggregateSignature_loop cos sigParts i ks aggS indivS = Ret (Some aggS')
      /\ length aggS' = 32%nat
      /\ (le_combine aggS = le_combine aggS mod ell ->
          le_combine aggS' =
          (le_combine aggS + scalar_sum (pick_enabled (mask cos) i rest)) mod ell).
Proof.
  induction ks as [|k ks IH]; intros i rest aggS indivS Hrest Hlen Hind Hagg Hall.
  - destruct rest; [|discriminate]. exists aggS. cbn.
    split; [reflexivity|]. split; [exact Hagg|].
    intros E. now rewrite Z.add_0_r.
  - destruct rest as [|p rest]; [discriminate|].
    destruct (skipn_cons_lookup _ _ _ _ Hrest) as [Hp Hrest'].
    cbn [AggregateSignature_loop pick_enabled] in *.
    rewrite maskBitAt_testbit.
    destruct (Z.testbit (mask cos) (Z.of_nat i)) eqn:Hbit; cbn [Bool.eqb Disabled].
    + apply (IH (S i) rest); auto.
    + rewrite Hp. apply Forall_cons in Hall as [Hp32 Hall].
      rewrite Hp32. cbn [Nat.eqb negb].
      rewrite (copy_same_length indivS p) by lia.
      destruct (IH (S i) rest (ScMulAdd aggS scOne p) p) as (aggS' & E & L & S);
        auto using length_ScMulAdd.
      exists aggS'. split; [exact E|]. split; [exact L|].
      intros Hcanon. rewrite S.
      * rewrite le_combine_ScMulAdd, le_combine_scOne, scalar_sum_cons.
        rewrite Z.mul_1_r, Z.add_mod_idemp_l, Z.add_mod_idemp_r
          by (pose proof ell_pos; lia).
        f_equal. lia.
      * rewrite le_combine_ScMulAdd. symmetry. apply Z.mod_mod.
        pose proof ell_pos; lia.
Qed.

Lemma copy_onto_prefix (a b src : list byte) :
  length src = length a -> copy (a ++ b) src = src ++ b.
Proof.
  intros H. unfold copy. rewrite take_ge by (rewrite length_app; lia).
  now rewrite drop_app_length'.
Qed.

(** The three [copy] calls that assemble the signature. *)
Lemma signature_layout (aggregateR aggS mask : list byte) :
  length aggregateR = 32%nat -> length aggS = 32%nat ->
  let signature := zeros (SignatureSize + length mask) in
  let signature := copy signature aggregateR in
  let signature :=
    firstn 32 signature
    ++ copy (firstn 32 (skipn 32 signature)) aggS
    ++ skipn 64 signature in
  firstn 64 signature ++ copy (skipn 64 signature) mask
  = aggregateR ++ aggS ++ mask.
Proof.
  intros HR HS. cbn zeta.
  change (zeros (SignatureSize + length mask))
    with (zeros 32 ++ zeros 32 ++ zeros (length mask)).
  rewrite copy_onto_prefix by (now rewrite length_zeros).
  change 64%nat with (32 + 32)%nat. rewrite <- !drop_drop.
  rewrite (take_app_length' aggregateR) by (now symmetry).
  rewrite !(drop_app_length' aggregateR) by (now symmetry).
  rewrite (take_app_length' (zeros 32)) by reflexivity.
  rewrite (drop_app_length' (zeros 32)) by reflexivity.
  rewrite (copy_same_length (zeros 32) aggS) by (rewrite HS; reflexivity).
  rewrite (drop_app_length' aggS) by (now symmetry).
  rewrite (copy_same_length _ mask) by (symmetry; apply length_zeros).
  rewrite (app_assoc aggregateR aggS).
  rewrite (take_app_length' (aggregateR ++ aggS))
    by (rewrite length_app; lia).
  now rewrite <- app_assoc.
Qed.

Lemma forallb_length_32 (ps : list (list byte)) :
  forallb (fun p => (length p =? 32)%nat) ps = true ->
  Forall (fun p => length p = 32%nat) ps.
Proof.
  rewrite forallb_forall, Forall_forall. intros H p Hp.
  apply Nat.eqb_eq, H. now apply list_elem_of_In.
Qed.

(** C6. [AggregateSignature] panics when the aggregate commit is not 32
    bytes. Otherwise, for [N] signature parts whose enabled entries have
    32 bytes, it returns [aggregateR ++ sbar ++ Mask()], which has
    [64 + MaskLen] bytes, where [sbar] encodes the sum modulo [ell] of the
    parts at the enabled indices. *)
Theorem AggregateSignature_layout
        (cos : Cosigners) (aggregateR : list byte) (sigParts : list (list byte)) :
  (length aggregateR <> 32%nat ->
   AggregateSignature cos aggregateR sigParts
   = Panic (BadAggregateRLength (length aggregateR)))
  /\
  (length aggregateR = 32%nat ->
   length sigParts = length (keys cos) ->
   forallb (fun p => (length p =? 32)%nat)
           (pick_enabled (mask cos) 0 sigParts) = true ->
   exists sbar : list byte,
     AggregateSignature cos aggregateR sigParts
     = Ret (Some (aggregateR ++ sbar ++ Mask cos))
     /\ length sbar = 32%nat
     /\ le_combine sbar = scalar_sum (pick_enabled (mask cos) 0 sigParts)
     /\ length (aggregateR ++ sbar ++ Mask cos)
        = (64 + (length (keys cos) + 7) / 8)%nat).
Proof.
  unfold AggregateSignature, PublicKeySize. split.
  - intros HR. now destruct (Nat.eqb_spec (length aggregateR) 32).
  - intros HR Hlen Hall. rewrite HR. cbn [Nat.eqb negb].
    destruct (AggregateSignature_loop_sum cos sigParts (keys cos) 0 sigParts
                (zeros 32) (zeros 32))
      as (sbar & E & L & S);
      auto using length_zeros, forallb_length_32.
    exists sbar. rewrite E. split; [|split; [exact L|split]].
    + now rewrite signature_layout.
    + rewrite S, le_combine_zeros by (now rewrite le_combine_zeros).
      unfold scalar_sum. apply Z.mod_mod. pose proof ell_pos. lia.
    + rewrite !length_app, HR, L, length_Mask, MaskLen_div. lia.
Qed.

(** A malformed enabled part makes the loop give up with nil. *)
Lemma AggregateSignature_loop_bad (cos : Cosigners) (sigParts : list (list byte))
      (ks : list ge) :
  forall (i : nat) (aggS indivS : list byte) (j : nat) (p : list byte),
    (i <= j < i + length ks)%nat -> maskBitAt cos j = Enabled ->
    sigParts !! j = Some p -> length p <> 32%nat ->
    AggregateSignature_loop cos sigParts i ks aggS indivS = Ret None.
Proof.
  induction ks as [|k ks IH]; intros i aggS indivS j p Hj Hen Hp Hbad;
    cbn [length] in Hj; [lia|].
  cbn [AggregateSignature_loop].
  destruct (Nat.eq_dec i j) as [->|Hne].
  - rewrite Hen, Hp. cbn [Bool.eqb Enabled Disabled].
    now destruct (Nat.eqb_spec (length p) 32).
  - destruct (Bool.eqb (maskBitAt cos i) Disabled).
    + apply (IH (S i) _ _ j p); auto; lia.
    + destruct (sigParts !! i) as [q|] eqn:Hq.
      * destruct (negb (length q =? 32)%nat); [reflexivity|].
        apply (IH (S i) _ _ j p); auto; lia.
      * apply lookup_ge_None in Hq. apply lookup_lt_Some in Hp. lia.
Qed.

(** The loop reads the parts at enabled indices only. *)
Lemma AggregateSignature_loop_ext (cos : Cosigners)
      (sigParts sigParts' : list (list byte)) (ks : list ge) :
  (forall i : nat, maskBitAt cos i = Enabled -> sigParts' !! i = sigParts !! i) ->
  forall (i : nat) (aggS indivS : list byte),
    AggregateSignature_loop cos sigParts' i ks aggS indivS
    = AggregateSignature_loop cos sigParts i ks aggS indivS.
Proof.
  intros H. induction ks as [|k ks IH]; intros i aggS indivS; [reflexivity|].
  cbn [AggregateSignature_loop].
  destruct (maskBitAt cos i) eqn:Hbit; cbn [Bool.eqb Disabled].
  - apply IH.
  - rewrite (H i Hbit). destruct (sigParts !! i) as [q|]; [|reflexivity].
    destruct (negb (length q =? 32)%nat); [reflexivity|]. apply IH.
Qed.

(** C10. With a 32-byte aggregate commit, an enabled index whose part is
    not 32 bytes long makes [AggregateSignature] return nil; and the
    result does not depend on the parts at disabled indices. *)
Theorem AggregateSignature_malformed_part
        (cos : Cosigners) (aggregateR : list byte) (sigParts : list (list byte)) :
  (forall (i : nat) (p : list byte),
      length aggregateR = 32%nat ->
      (i < length (keys cos))%nat -> maskBitAt cos i = Enabled ->
      sigParts !! i = Some p -> length p <> 32%nat ->
      AggregateSignature cos aggregateR sigParts = Ret None)
  /\
  (forall sigParts' : list (list byte),
      (forall i : nat, maskBitAt cos i = Enabled ->
                       sigParts' !! i = sigParts !! i) ->
      AggregateSignature cos aggregateR sigParts'
      = AggregateSignature cos aggregateR sigParts).
Proof.
  unfold AggregateSignature, PublicKeySize. split.
  - intros i p HR Hi Hen Hp Hbad. rewrite HR. cbn [Nat.eqb negb].
    rewrite (AggregateSignature_loop_bad cos sigParts (keys cos) 0 _ _ i p);
      auto. lia.
  - intros sigParts' H.
    now rewrite (AggregateSignature_loop_ext cos sigParts sigParts' _ H).
Qed.

(** The loop of [AggregateCommit]: nil as soon as an enabled entry does
    not decode, else the accumulator plus the decoded enabled entries. *)
Lemma AggregateCommit_loop_spec (cos : Cosigners) (commits : list (list byte))
      (ks : list ge) :
  forall (i : nat) (rest : list (list byte)) (commitBytes : list byte) (aggR : ge),
    skipn i commits = rest -> length rest = length ks ->
    length commitBytes = 32%nat ->
    AggregateCommit_loop cos commits i ks commitBytes aggR =
    if forallb decodes (pick_enabled (mask cos) i rest)
    then Ret (Some (fold_left ge_Add
                              (decode_all (pick_enabled (mask cos) i rest)) aggR))
    else Ret None.
Proof.
  induction ks as [|k ks IH]; intros i rest commitBytes aggR Hrest Hlen Hbuf.
  - now destruct rest.
  - destruct rest as [|c rest]; [discriminate|].
    destruct (skipn_cons_lookup _ _ _ _ Hrest) as [Hc Hrest'].
    cbn [AggregateCommit_loop pick_enabled]. rewrite maskBitAt_testbit.
    destruct (Z.testbit (mask cos) (Z.of_nat i)); cbn [Bool.eqb Disabled].
    + apply (IH (S i) rest); auto.
    + rewrite Hc. cbn [forallb decode_all]. unfold decodes at 1, PublicKeySize.
      destruct (Nat.eqb_spec (length c) 32) as [Hc32|]; cbn [negb andb];
        [|reflexivity].
      rewrite (copy_same_length commitBytes c) by lia.
      destruct (ge_FromBytes c) as [indivR|]; [|reflexivity].
      cbn [fold_left]. apply (IH (S i) rest); auto.
Qed.

Lemma AggregateCommit_loop_ext (cos : Cosigners)
      (commits commits' : list (list byte)) (ks : list ge) :
  (forall i : nat, maskBitAt cos i = Enabled -> commits' !! i = commits !! i) ->
  forall (i : nat) (commitBytes : list byte) (aggR : ge),
    AggregateCommit_loop cos commits' i ks commitBytes aggR
    = AggregateCommit_loop cos commits i ks commitBytes aggR.
Proof.
  intros H. induction ks as [|k ks IH]; intros i commitBytes aggR;
    [reflexivity|].
  cbn [AggregateCommit_loop].
  destruct (maskBitAt cos i) eqn:Hbit; cbn [Bool.eqb Disabled].
  - apply IH.
  - rewrite (H i Hbit). destruct (commits !! i) as [c|]; [|reflexivity].
    destruct (negb (length c =? PublicKeySize)%nat); [reflexivity|].
    destruct (ge_FromBytes (copy commitBytes c)); [apply IH | reflexivity].
Qed.

Hypothesis ge_ToBytes_length : forall p : ge, length (ge_ToBytes p) = 32%nat.

(** C7. For [N] commitments, [AggregateCommit] reads the entries at the
    enabled indices only; it returns nil when one of them is not a
    32-byte encoding that decodes, and otherwise the 32-byte encoding of
    the sum, from the identity, of the decoded enabled entries. *)
Theorem AggregateCommit_spec (cos : Cosigners) (commits : list (list byte)) :
  length commits = length (keys cos) ->
  let enabled := pick_enabled (mask cos) 0 commits in
  (forallb decodes enabled = false -> AggregateCommit cos commits = Ret None)
  /\ (forallb decodes enabled = true ->
      AggregateCommit cos commits
      = Ret (Some (ge_ToBytes (ge_sum (decode_all enabled))))
      /\ length (ge_ToBytes (ge_sum (decode_all enabled))) = 32%nat)
  /\ (forall commits' : list (list byte),
         (forall i : nat, maskBitAt cos i = Enabled ->
                          commits' !! i = commits !! i) ->
         AggregateCommit cos commits' = AggregateCommit cos commits).
Proof using ge_ToBytes_length.
  intros Hlen enabled. unfold AggregateCommit.
  rewrite (AggregateCommit_loop_spec cos commits (keys cos) 0 commits)
    by auto using length_zeros.
  fold enabled. split; [|split].
  - now intros ->.
  - intros ->. split; [reflexivity | apply ge_ToBytes_length].
  - intros commits' H.
    rewrite (AggregateCommit_loop_ext cos commits commits' _ H).
    now rewrite (AggregateCommit_loop_spec cos commits (keys cos) 0 commits)
      by auto using length_zeros.
Qed.

(** ** Verification *)

Lemma testbit_le_combine (l : list byte) :
  forall (k : nat) (b : byte) (t : Z),
    l !! k = Some b -> 0 <= t < 8 ->
    Z.testbit (le_combine l) (8 * Z.of_nat k + t) = Z.testbit (byte.unsigned b) t.
Proof.
  induction l as [|h l IH]; intros k b t Hk Ht; [discriminate|].
  change (le_combine (h :: l))
    with (Z.lor (byte.unsigned h) (Z.shiftl (le_combine l) 8)).
  rewrite Z.lor_spec. destruct k as [|k]; cbn in Hk.
  - injection Hk as ->. rewrite Z.shiftl_spec_low by lia.
    rewrite orb_false_r. f_equal; lia.
  - rewrite testbit_unsigned_high by lia. rewrite Z.shiftl_spec by lia.
    cbn [orb]. rewrite <- (IH k b t Hk Ht). f_equal; lia.
Qed.

(** A set bit among the top three of a 32-byte scalar shows in
    [sigS[31] & 224]. *)
Lemma top_bits_byte_31 (sigS : list byte) (t : Z) :
  length sigS = 32%nat -> 253 <= t < 256 ->
  Z.testbit (le_combine sigS) t = true ->
  match sigS !! 31%nat with
  | Some b => byte_nonzero (byte.and b (byte.of_Z 224))
  | None => false
  end = true.
Proof.
  intros Hlen Ht Hbit.
  destruct (sigS !! 31%nat) as [b|] eqn:Hb.
  2: { apply lookup_ge_None in Hb. lia. }
  replace t with (8 * Z.of_nat 31 + (t - 248)) in Hbit by lia.
  rewrite (testbit_le_combine _ _ _ _ Hb) in Hbit by lia.
  unfold byte_nonzero. apply negb_true_iff, Z.eqb_neq. intros E.
  assert (Hand : Z.testbit (byte.unsigned (byte.and b (byte.of_Z 224)))
                           (t - 248) = true).
  { rewrite testbit_byte_and, Hbit.
    assert (Hc : t - 248 = 5 \/ t - 248 = 6 \/ t - 248 = 7) by lia.
    destruct Hc as [-> | [-> | ->]]; reflexivity. }
  rewrite E, Z.bits_0 in Hand. discriminate.
Qed.

Lemma snd_verify (cos : Cosigners) (message aggR sigR sigS : list byte) (sigA : ge) :
  snd (verify cos message aggR sigR sigS sigA) = cos.
Proof. unfold verify. now destruct (_ || _). Qed.

Lemma snd_Verify (cos : Cosigners) (message sig : list byte) :
  snd (Verify cos message sig) =
  if (length sig =? SignatureSize + MaskLen cos)%nat
  then SetMask (skipn 64 sig) cos else cos.
Proof.
  unfold Verify. destruct (length sig =? _)%nat; cbn [negb]; [|reflexivity].
  destruct (negb (Check _ _)); [reflexivity | apply snd_verify].
Qed.

(** C5. [Verify] returns false on a signature whose length is not
    [64 + MaskLen]. When the length is right it first sets the mask from
    [sig[64:]], so that afterwards [Mask()] carries the trailer's bit for
    every cosigner (and is the trailer itself when its bits past the last
    cosigner are zero); it returns false when the policy rejects the set
    with that mask, and when one of the top three bits of the scalar
    [sig[32:64]] is set. *)
Theorem Verify_rejects (cos : Cosigners) (message sig : list byte) :
  (length sig <> (64 + (length (keys cos) + 7) / 8)%nat ->
   Verify cos message sig = (false, cos))
  /\
  (length sig = (64 + (length (keys cos) + 7) / 8)%nat ->
   let cos' := SetMask (skipn 64 sig) cos in
   snd (Verify cos message sig) = cos'
   /\ (forall i : nat, (i < length (keys cos))%nat ->
                       packed_bit (Mask cos') i = packed_bit (skipn 64 sig) i)
   /\ (trailing_clear (length (keys cos)) (skipn 64 sig) = true ->
       Mask cos' = skipn 64 sig)
   /\ (Check (policy cos') cos' = false ->
       fst (Verify cos message sig) = false)
   /\ (forall t : Z, 253 <= t < 256 ->
          Z.testbit (le_combine (firstn 32 (skipn 32 sig))) t = true ->
          fst (Verify cos message sig) = false)).
Proof.
  rewrite <- MaskLen_div. split.
  - intros Hlen. unfold Verify, SignatureSize.
    now destruct (Nat.eqb_spec (length sig) (64 + MaskLen cos)).
  - intros Hlen cos'. split; [|split; [|split; [|split]]].
    + rewrite snd_Verify. unfold SignatureSize.
      now destruct (Nat.eqb_spec (length sig) (64 + MaskLen cos)).
    + intros i Hi. unfold cos'. rewrite packed_bit_Mask_SetMask.
      destruct (Nat.ltb_spec i (length (keys cos))); [reflexivity | lia].
    + intros Htrail.
      apply Mask_SetMask; [|exact Htrail].
      rewrite length_skipn. lia.
    + intros Hrej. unfold Verify, SignatureSize. rewrite Hlen, Nat.eqb_refl.
      cbn [negb]. fold cos'. now rewrite Hrej.
    + intros t Ht Hbit. unfold Verify, SignatureSize. rewrite Hlen, Nat.eqb_refl.
      cbn [negb]. fold cos'.
      destruct (negb (Check (policy cos') cos')); [reflexivity|].
      unfold verify.
      assert (H32 : length (firstn 32 (skipn 32 sig)) = 32%nat).
      { rewrite length_take, length_drop. lia. }
      rewrite (top_bits_byte_31 _ t H32 Ht Hbit), !orb_true_r. reflexivity.
Qed.


(** ** Counting and policies *)

Lemma pick_enabled_length_le {A} (l : list A) :
  forall (mk : Z) (i : nat), (length (pick_enabled mk i l) <= length l)%nat.
Proof.
  induction l as [|x l IH]; intros mk i; cbn [pick_enabled length]; [lia|].
  specialize (IH mk (S i)).
  destruct (Z.testbit mk (Z.of_nat i)); cbn [length]; lia.
Qed.

Lemma pick_enabled_all {A} (l : list A) :
  forall (mk : Z) (i : nat),
    length (pick_enabled mk i l) = length l <->
    forall j : nat, (i <= j < i + length l)%nat ->
                    Z.testbit mk (Z.of_nat j) = false.
Proof.
  induction l as [|x l IH]; intros mk i; cbn [pick_enabled length].
  - split; [intros _ j Hj; lia | reflexivity].
  - pose proof (pick_enabled_length_le l mk (S i)) as Hle.
    destruct (Z.testbit mk (Z.of_nat i)) eqn:Hbit; cbn [length].
    + split; [lia|]. intros H. rewrite H in Hbit by lia. discriminate.
    + split.
      * intros E j Hj. destruct (Nat.eq_dec j i) as [->|Hne]; [exact Hbit|].
        apply (proj1 (IH mk (S i))); lia.
      * intros H. f_equal. apply IH. intros j Hj. apply H. lia.
Qed.

Lemma pick_enabled_none {A} (l : list A) :
  forall (mk : Z) (i : nat),
    (forall j : nat, (i <= j < i + length l)%nat ->
                     Z.testbit mk (Z.of_nat j) = true) ->
    pick_enabled mk i l = [].
Proof.
  induction l as [|x l IH]; intros mk i H; [reflexivity|].
  cbn [pick_enabled]. rewrite H by (cbn [length]; lia).
  apply IH. intros j Hj. apply H. cbn [length]. lia.
Qed.

Lemma CountEnabled_loop (cos : Cosigners) (l : list ge) :
  forall (i count : nat),
    fold_left (fun count i =>
                 if Bool.eqb (maskBitAt cos i) Enabled then S count else count)
              (seq i (length l)) count
    = (count + length (pick_enabled (mask cos) i l))%nat.
Proof.
  induction l as [|x l IH]; intros i count; cbn [length seq fold_left pick_enabled].
  - lia.
  - rewrite IH, maskBitAt_testbit.
    destruct (Z.testbit (mask cos) (Z.of_nat i)); cbn [Bool.eqb Enabled length];
      lia.
Qed.

Lemma CountEnabled_length (cos : Cosigners) :
  CountEnabled cos = length (pick_enabled (mask cos) 0 (keys cos)).
Proof. unfold CountEnabled. now rewrite CountEnabled_loop. Qed.

Lemma CountEnabled_le (cos : Cosigners) :
  (CountEnabled cos <= CountTotal cos)%nat.
Proof. rewrite CountEnabled_length. apply pick_enabled_length_le. Qed.

Lemma CountEnabled_full (cos : Cosigners) :
  CountEnabled cos = CountTotal cos <->
  forall i : nat, (i < CountTotal cos)%nat -> maskBitAt cos i = Enabled.
Proof.
  rewrite CountEnabled_length. unfold CountTotal.
  rewrite pick_enabled_all. split; intros H i Hi.
  - rewrite maskBitAt_testbit. apply H. lia.
  - rewrite <- maskBitAt_testbit. apply H. lia.
Qed.

(** X1. [CountEnabled] counts the cosigners whose mask bit is clear: it is
    at most [CountTotal], and equal to it exactly when every cosigner is
    Enabled. *)
Theorem CountEnabled_bounds (cos : Cosigners) :
  CountEnabled cos = length (pick_enabled (mask cos) 0 (keys cos))
  /\ (CountEnabled cos <= CountTotal cos)%nat
  /\ (CountEnabled cos = CountTotal cos <->
      forall i : nat, (i < CountTotal cos)%nat -> maskBitAt cos i = Enabled).
Proof.
  split; [apply CountEnabled_length|].
  split; [apply CountEnabled_le | apply CountEnabled_full].
Qed.

Lemma Check_fullPolicy (cos : Cosigners) :
  Check fullPolicy cos = true <->
  forall i : nat, (i < CountTotal cos)%nat -> maskBitAt cos i = Enabled.
Proof. cbn [Check]. rewrite Nat.eqb_eq. apply CountEnabled_full. Qed.

(** X2. The default policy accepts exactly the sets with every cosigner
    Enabled; a threshold policy accepts exactly when the threshold is at
    most [CountEnabled], so a threshold of zero or less accepts every set
    (also one with nobody enabled) and a threshold above [CountTotal]
    accepts none. *)
Theorem policy_checks (cos : Cosigners) (t : Z) :
  (Check fullPolicy cos = true <->
   forall i : nat, (i < CountTotal cos)%nat -> maskBitAt cos i = Enabled)
  /\ (Check (ThresholdPolicy t) cos = true <-> t <= Z.of_nat (CountEnabled cos))
  /\ (t <= 0 -> Check (ThresholdPolicy t) cos = true)
  /\ (Z.of_nat (CountTotal cos) < t -> Check (ThresholdPolicy t) cos = false).
Proof.
  pose proof (CountEnabled_le cos) as Hle.
  split; [apply Check_fullPolicy|].
  cbn [Check ThresholdPolicy]. split; [|split].
  - apply Z.leb_le.
  - intros Ht. apply Z.leb_le. lia.
  - intros Ht. apply Z.leb_gt. lia.
Qed.

(** X3. Under the default policy [Verify] returns false for every
    signature of the right length whose trailer disables a cosigner. *)
Theorem Verify_default_policy_needs_all
        (cos : Cosigners) (message sig : list byte) (i : nat) :
  policy cos = fullPolicy ->
  length sig = (64 + MaskLen cos)%nat ->
  (i < CountTotal cos)%nat ->
  packed_bit (skipn 64 sig) i = true ->
  fst (Verify cos message sig) = false.
Proof.
  intros Hpol Hlen Hi Hbit. unfold Verify, SignatureSize.
  rewrite Hlen, Nat.eqb_refl. cbn [negb].
  rewrite policy_SetMask, Hpol.
  replace (Check fullPolicy (SetMask (skipn 64 sig) cos)) with false;
    [reflexivity|].
  symmetry. apply not_true_iff_false. intros Hc.
  pose proof (proj1 (Check_fullPolicy _) Hc i) as Hen.
  unfold CountTotal in Hen, Hi. rewrite keys_SetMask in Hen.
  specialize (Hen Hi). clear Hc. rename Hen into Hc.
  rewrite maskBitAt_testbit, testbit_SetMask, Nat2Z.id, Hbit in Hc.
  revert Hc. zbool; bsimpl; discriminate.
Qed.

(** ** Construction *)

Lemma packed_bit_nil (i : nat) : packed_bit [] i = false.
Proof. reflexivity. Qed.

Lemma pick_enabled_zero {A} (l : list A) (i : nat) : pick_enabled 0 i l = l.
Proof.
  revert i. induction l as [|x l IH]; intros i; [reflexivity|].
  cbn [pick_enabled]. now rewrite Z.bits_0, IH.
Qed.

Lemma mask_SetMask_nil (cos : Cosigners) : mask (SetMask [] cos) = 0.
Proof.
  apply Z.bits_inj'. intros j _.
  now rewrite testbit_SetMask, packed_bit_nil, Z.bits_0, andb_false_r.
Qed.

Lemma length_NewCosigners_loop (pks : list (list byte)) :
  forall (buf : list byte) (ks : list ge),
    NewCosigners_loop buf pks = Some ks -> length ks = length pks.
Proof.
  induction pks as [|pk pks IH]; intros buf ks; cbn [NewCosigners_loop].
  - now intros [= <-].
  - destruct (ge_FromBytes (copy buf pk)); [|discriminate].
    destruct (NewCosigners_loop (copy buf pk) pks) as [ks'|] eqn:E;
      [|discriminate].
    intros [= <-]. cbn [length]. f_equal. eapply IH, E.
Qed.

(** X4. A set returned by [NewCosigners] has one key per public key, an
    empty mask, the default policy, and the sum of all keys as its
    aggregate; every cosigner is Enabled, [Mask()] is all zero bytes and
    the default policy accepts the set. *)
Theorem NewCosigners_fresh (publicKeys : list (list byte)) (cos : Cosigners) :
  NewCosigners publicKeys = Some cos ->
  CountTotal cos = length publicKeys
  /\ mask cos = 0
  /\ policy cos = fullPolicy
  /\ aggr cos = ge_sum (keys cos)
  /\ CountEnabled cos = CountTotal cos
  /\ Mask cos = zeros (MaskLen cos)
  /\ Check (policy cos) cos = true.
Proof.
  unfold NewCosigners.
  destruct (NewCosigners_loop (zeros 32) publicKeys) as [ks|] eqn:E;
    [|discriminate].
  intros [= <-].
  set (cos0 := mkCosigners ks 0 ge_Zero fullPolicy).
  assert (Hmask : mask (SetMask [] cos0) = 0) by apply mask_SetMask_nil.
  assert (Hcount : CountEnabled (SetMask [] cos0) = CountTotal (SetMask [] cos0)).
  { rewrite CountEnabled_length, Hmask, pick_enabled_zero. reflexivity. }
  split; [|split; [|split; [|split; [|split; [|split]]]]].
  - unfold CountTotal. rewrite keys_SetMask. cbn [keys cos0].
    eapply length_NewCosigners_loop, E.
  - exact Hmask.
  - now rewrite policy_SetMask.
  - rewrite aggr_SetMask_sum. unfold enabled_sum.
    now rewrite Hmask, pick_enabled_zero.
  - exact Hcount.
  - apply packed_bit_inj.
    + now rewrite length_Mask, length_zeros.
    + intros i. rewrite packed_bit_Mask, Hmask, Z.bits_0, andb_false_r.
      symmetry. rewrite packed_bit_testbit.
      destruct (zeros _ !! idx_byte i) as [b|] eqn:Hb; [|reflexivity].
      apply lookup_zeros in Hb. subst b. apply Z.bits_0.
  - rewrite policy_SetMask. cbn [policy cos0 Check].
    now apply Nat.eqb_eq.
Qed.

Lemma NewCosigners_loop_long (pks : list (list byte)) :
  forall buf : list byte,
    length buf = 32%nat ->
    Forall (fun pk => (32 <= length pk)%nat) pks ->
    NewCosigners_loop buf pks = mapM (fun pk => ge_FromBytes (firstn 32 pk)) pks.
Proof.
  induction pks as [|pk pks IH]; intros buf Hbuf Hall; [reflexivity|].
  apply Forall_cons in Hall as [Hpk Hall].
  cbn [NewCosigners_loop]. rewrite copy_short, Hbuf by lia.
  cbn. destruct (ge_FromBytes (firstn 32 pk)) as [k|]; [|reflexivity].
  rewrite IH by (rewrite ?length_take; auto; lia). cbn.
  now destruct (mapM _ pks).
Qed.

(** X5. When every public key has at least 32 bytes, [NewCosigners]
    decodes the first 32 bytes of each (longer keys are cut, not
    rejected): it returns nil exactly when one of them does not decode,
    and otherwise the keys of the set are the decoded points, in order. *)
Theorem NewCosigners_decodes (publicKeys : list (list byte)) :
  Forall (fun pk => (32 <= length pk)%nat) publicKeys ->
  (NewCosigners publicKeys = None <->
   exists pk, In pk publicKeys /\ ge_FromBytes (firstn 32 pk) = None)
  /\ (forall cos, NewCosigners publicKeys = Some cos ->
                  Forall2 (fun pk k => ge_FromBytes (firstn 32 pk) = Some k)
                          publicKeys (keys cos)).
Proof.
  intros Hall. unfold NewCosigners.
  rewrite (NewCosigners_loop_long publicKeys (zeros 32))
    by auto using length_zeros.
  clear Hall. split.
  - induction publicKeys as [|pk pks IH]; cbn.
    + split; [discriminate | now intros (pk & [] & _)].
    + destruct (ge_FromBytes (firstn 32 pk)) as [k|] eqn:Hk; cbn.
      * destruct (mapM _ pks) as [ks|] eqn:E; cbn.
        -- split; [discriminate|]. intros (pk' & [<-|Hin] & Hnone).
           ++ congruence.
           ++ apply proj2 in IH. discriminate IH. eauto.
        -- split; [|reflexivity]. intros _.
           destruct (proj1 IH eq_refl) as (pk' & Hin & Hnone). eauto.
      * split; [|reflexivity]. intros _. exists pk. auto.
  - intros cos.
    destruct (mapM _ publicKeys) as [ks|] eqn:E; [|discriminate].
    intros [= <-]. rewrite keys_SetMask. cbn [keys].
    apply mapM_Some in E. exact E.
Qed.

Lemma copy_copy (buf buf' src : list byte) :
  length buf' = length buf -> copy buf' (copy buf src) = copy buf src.
Proof.
  intros H. apply copy_same_length. now rewrite length_copy.
Qed.

Lemma NewCosigners_loop_head (buf buf' pk : list byte) (rest : list (list byte)) :
  length buf' = length buf ->
  NewCosigners_loop buf (pk :: rest)
  = NewCosigners_loop buf' (copy buf pk :: rest).
Proof.
  intros H. cbn [NewCosigners_loop]. now rewrite copy_copy.
Qed.

Lemma copy_padded (buf src : list byte) :
  (length src <= length buf)%nat ->
  copy buf src = src ++ skipn (length src) buf.
Proof.
  intros H. unfold copy. now rewrite take_ge by lia.
Qed.

(** X6. A public key shorter than 32 bytes is not rejected: the first key
    is decoded as if padded with zero bytes, and a later key as if
    completed with the bytes that the 32-byte key before it has at the
    same positions. *)
Theorem NewCosigners_short_key (k1 k2 : list byte) (rest : list (list byte)) :
  ((length k1 <= 32)%nat ->
   NewCosigners (k1 :: rest)
   = NewCosigners ((k1 ++ zeros (32 - length k1)) :: rest))
  /\ (length k1 = 32%nat -> (length k2 <= 32)%nat ->
      NewCosigners (k1 :: k2 :: rest)
      = NewCosigners (k1 :: (k2 ++ skipn (length k2) k1) :: rest)).
Proof.
  unfold NewCosigners. split.
  - intros H1.
    rewrite (NewCosigners_loop_head (zeros 32) (zeros 32) k1) by reflexivity.
    rewrite copy_padded by (rewrite length_zeros; lia).
    replace (skipn (length k1) (zeros 32)) with (zeros (32 - length k1));
      [reflexivity|].
    unfold zeros. now rewrite drop_replicate.
  - intros H1 H2. cbn [NewCosigners_loop].
    rewrite (copy_same_length (zeros 32) k1) by (now rewrite length_zeros).
    destruct (ge_FromBytes k1); [|reflexivity].
    rewrite (copy_padded k1 k2) by lia.
    rewrite (copy_same_length k1 (k2 ++ skipn (length k2) k1)); [reflexivity|].
    rewrite length_app, length_drop. lia.
Qed.

(** ** More on the mask *)

Lemma SetMask_loop_ext_range (m m' : list byte) (ks : list ge) :
  forall (i : nat) (mk : Z) (ag : ge),
    (forall j : nat, (i <= j < i + length ks)%nat ->
                     packed_bit m j = packed_bit m' j) ->
    SetMask_loop m i ks mk ag = SetMask_loop m' i ks mk ag.
Proof.
  induction ks as [|k ks IH]; intros i mk ag H; [reflexivity|].
  cbn [SetMask_loop]. rewrite (H i) by (cbn [length]; lia).
  destruct (packed_bit m' i); apply IH; intros j Hj; apply H;
    cbn [length]; lia.
Qed.

Lemma SetMask_same_keys (m : list byte) (cos1 cos2 : Cosigners) :
  keys cos1 = keys cos2 -> policy cos1 = policy cos2 ->
  SetMask m cos1 = SetMask m cos2.
Proof. intros Hk Hp. unfold SetMask. now rewrite Hk, Hp. Qed.

(** X7. [SetMask] rebuilds the mask and the aggregate from the keys
    alone: what was set before does not matter, the packed bits past the
    last cosigner are ignored, and afterwards cosigner [i] is Disabled
    exactly when its packed bit is set. *)
Theorem SetMask_overwrites (m : list byte) (cos : Cosigners) :
  (forall m0 : list byte, SetMask m (SetMask m0 cos) = SetMask m cos)
  /\ (forall m' : list byte,
         (forall i : nat, (i < CountTotal cos)%nat ->
                          packed_bit m' i = packed_bit m i) ->
         SetMask m' cos = SetMask m cos)
  /\ (forall i : nat,
         maskBitAt (SetMask m cos) i
         = (i <? CountTotal cos)%nat && packed_bit m i).
Proof.
  split; [|split].
  - intros m0. apply SetMask_same_keys;
      [apply keys_SetMask | apply policy_SetMask].
  - intros m' H. unfold SetMask.
    rewrite (SetMask_loop_ext_range m' m); [reflexivity|].
    intros j Hj. apply H. unfold CountTotal. lia.
  - intros i. rewrite maskBitAt_testbit, testbit_SetMask, Nat2Z.id.
    unfold CountTotal. zbool; bsimpl; reflexivity.
Qed.

Lemma trailing_clear_Mask (cos : Cosigners) :
  trailing_clear (length (keys cos)) (Mask cos) = true.
Proof.
  unfold trailing_clear. apply forallb_forall. intros i Hi.
  apply in_seq in Hi. rewrite packed_bit_Mask.
  destruct (Nat.ltb_spec i (length (keys cos))); [lia | reflexivity].
Qed.

(** X8. [Mask()] always has [MaskLen] bytes, carries the mask bit of every
    cosigner and zero bits past the last one, whatever bits the internal
    mask holds there; setting it again gives the same packed mask. *)
Theorem Mask_canonical (cos : Cosigners) :
  length (Mask cos) = MaskLen cos
  /\ MaskLen cos = ((CountTotal cos + 7) / 8)%nat
  /\ (forall i : nat,
         packed_bit (Mask cos) i
         = (i <? CountTotal cos)%nat && maskBitAt cos i)
  /\ trailing_clear (CountTotal cos) (Mask cos) = true
  /\ Mask (SetMask (Mask cos) cos) = Mask cos.
Proof.
  unfold CountTotal. split; [apply length_Mask|].
  split; [apply MaskLen_div|]. split; [|split].
  - intros i. rewrite maskBitAt_testbit. apply packed_bit_Mask.
  - apply trailing_clear_Mask.
  - apply Mask_SetMask; [apply length_Mask | apply trailing_clear_Mask].
Qed.

(** ** More on SetMaskBit *)

Lemma SetMaskBit_some (signer : Z) (bit : MaskBit) (cos : Cosigners) (k : ge) :
  0 <= signer -> keys cos !! Z.to_nat signer = Some k ->
  exists cos' : Cosigners,
    SetMaskBit signer bit cos = (Ret tt, cos')
    /\ keys cos' = keys cos /\ policy cos' = policy cos
    /\ forall j : Z,
        Z.testbit (mask cos') j
        = if signer =? j then bit else Z.testbit (mask cos) j.
Proof.
  intros Hs Hk. unfold SetMaskBit.
  destruct (Z.ltb_spec signer 0); [lia|].
  rewrite Hk, Bit_eq_0, Bit_eq_1.
  destruct bit; cbn [Bool.eqb Disabled];
    destruct (Z.testbit (mask cos) signer) eqn:Hbit; cbn [negb];
    eexists; (split; [reflexivity|]); cbn [keys policy mask];
    (split; [reflexivity|]); (split; [reflexivity|]); intros j.
  - destruct (Z.eqb_spec signer j) as [<-|]; [exact Hbit | reflexivity].
  - rewrite testbit_SetBit_1 by lia. now destruct (signer =? j).
  - rewrite testbit_SetBit_0. destruct (signer =? j); now bsimpl.
  - destruct (Z.eqb_spec signer j) as [<-|]; [exact Hbit | reflexivity].
Qed.

(** X9. For a cosigner of the set, [SetMaskBit] returns; afterwards
    [MaskBit] of that cosigner is the bit that was set, every other mask
    bit is as before, and the keys and the policy are unchanged. *)
Theorem SetMaskBit_sets_bit (signer : Z) (bit : MaskBit) (cos : Cosigners) :
  0 <= signer < Z.of_nat (CountTotal cos) ->
  exists cos' : Cosigners,
    SetMaskBit signer bit cos = (Ret tt, cos')
    /\ MaskBitOf cos' signer = Ret bit
    /\ (forall j : Z, j <> signer ->
                      Z.testbit (mask cos') j = Z.testbit (mask cos) j)
    /\ keys cos' = keys cos /\ policy cos' = policy cos.
Proof.
  intros Hs. unfold CountTotal in Hs.
  destruct (keys cos !! Z.to_nat signer) as [k|] eqn:Hk.
  2: { apply lookup_ge_None in Hk. lia. }
  destruct (SetMaskBit_some signer bit cos k) as (cos' & E & Hkeys & Hpol & Hbits);
    [lia | exact Hk |].
  exists cos'. split; [exact E|]. split; [|split; [|split]]; auto.
  - unfold MaskBitOf. destruct (Z.ltb_spec signer 0); [lia|].
    rewrite Bit_eq_0, negb_involutive, Hbits, Z.eqb_refl. reflexivity.
  - intros j Hj. rewrite Hbits.
    destruct (Z.eqb_spec signer j); [congruence | reflexivity].
Qed.

(** X10. [SetMaskBit] with the bit that the cosigner already has returns
    and changes nothing, for any index that is not negative (also one
    past the last cosigner). *)
Theorem SetMaskBit_same_bit (signer : Z) (bit : MaskBit) (cos : Cosigners) :
  MaskBitOf cos signer = Ret bit ->
  SetMaskBit signer bit cos = (Ret tt, cos).
Proof.
  unfold MaskBitOf, SetMaskBit.
  destruct (signer <? 0); [discriminate|].
  rewrite Bit_eq_0, Bit_eq_1, negb_involutive. intros [= <-].
  now destruct (Z.testbit (mask cos) signer).
Qed.

(** X11. [SetMaskBit] panics exactly on a negative index, which leaves
    the set untouched, and on an index past the last cosigner whose bit
    would change; in the second case the bit is already changed in the
    internal mask when the panic comes, while the keys, the aggregate,
    the policy and the packed [Mask()] are as before. *)
Theorem SetMaskBit_panics (signer : Z) (bit : MaskBit) (cos : Cosigners) :
  (returns (fst (SetMaskBit signer bit cos)) = false <->
   signer < 0
   \/ (Z.of_nat (CountTotal cos) <= signer
       /\ Z.testbit (mask cos) signer = negb bit))
  /\ (signer < 0 -> SetMaskBit signer bit cos = (Panic NegativeBitIndex, cos))
  /\ (Z.of_nat (CountTotal cos) <= signer ->
      Z.testbit (mask cos) signer = negb bit ->
      let cos' := snd (SetMaskBit signer bit cos) in
      fst (SetMaskBit signer bit cos) = Panic IndexOutOfRange
      /\ Z.testbit (mask cos') signer = bit
      /\ keys cos' = keys cos /\ aggr cos' = aggr cos
      /\ policy cos' = policy cos /\ Mask cos' = Mask cos).
Proof.
  unfold CountTotal. split; [|split].
  - unfold SetMaskBit. destruct (Z.ltb_spec signer 0) as [Hneg|Hs].
    { cbn. split; [now left | reflexivity]. }
    rewrite Bit_eq_0, Bit_eq_1.
    destruct (keys cos !! Z.to_nat signer) as [k|] eqn:Hk.
    + apply lookup_lt_Some in Hk.
      destruct bit; cbn [Bool.eqb Disabled];
        destruct (Z.testbit (mask cos) signer); cbn;
        (split; [discriminate | intros [?|[? ?]]; lia]).
    + apply lookup_ge_None in Hk.
      destruct bit; cbn [Bool.eqb Disabled];
        destruct (Z.testbit (mask cos) signer); cbn;
        (split; [first [discriminate
                       | intros _; right; split; [lia | reflexivity]]
                | intros [?|[? ?]]; try lia; try discriminate; reflexivity]).
  - intros Hneg. unfold SetMaskBit.
    now destruct (Z.ltb_spec signer 0); [|lia].
  - intros Hs Hbit. unfold SetMaskBit.
    destruct (Z.ltb_spec signer 0); [lia|].
    rewrite Bit_eq_0, Bit_eq_1, Hbit.
    assert (Hk : keys cos !! Z.to_nat signer = None)
      by (apply lookup_ge_None; lia).
    rewrite Hk.
    destruct bit; cbn [Bool.eqb Disabled negb fst snd keys aggr policy mask].
    + split; [reflexivity|]. split.
      { rewrite testbit_SetBit_1, Z.eqb_refl by lia. reflexivity. }
      repeat (split; [reflexivity|]).
      apply packed_bit_inj; [now rewrite !length_Mask|].
      intros i. rewrite !packed_bit_Mask. cbn [keys mask].
      destruct (Nat.ltb_spec i (length (keys cos))); [|reflexivity].
      rewrite testbit_SetBit_1 by lia.
      destruct (Z.eqb_spec signer (Z.of_nat i)); [lia | reflexivity].
    + split; [reflexivity|]. split.
      { rewrite testbit_SetBit_0, Z.eqb_refl. now bsimpl. }
      repeat (split; [reflexivity|]).
      apply packed_bit_inj; [now rewrite !length_Mask|].
      intros i. rewrite !packed_bit_Mask. cbn [keys mask].
      destruct (Nat.ltb_spec i (length (keys cos))); [|reflexivity].
      rewrite testbit_SetBit_0.
      destruct (Z.eqb_spec signer (Z.of_nat i)); [lia | now bsimpl].
Qed.

Lemma pick_enabled_toggle_length {A} (l : list A) :
  forall (i : nat) (mk mk' : Z) (s : nat),
    (i <= s < i + length l)%nat ->
    Z.testbit mk (Z.of_nat s) = false ->
    Z.testbit mk' (Z.of_nat s) = true ->
    (forall j : nat, j <> s ->
                     Z.testbit mk' (Z.of_nat j) = Z.testbit mk (Z.of_nat j)) ->
    length (pick_enabled mk i l) = S (length (pick_enabled mk' i l)).
Proof.
  induction l as [|x l IH]; intros i mk mk' s Hs Hoff Hon Hsame;
    cbn [length] in Hs; [lia|].
  cbn [pick_enabled]. destruct (Nat.eq_dec i s) as [->|Hne].
  - rewrite Hoff, Hon. cbn [length]. f_equal. f_equal.
    apply pick_enabled_ext. intros j Hj. symmetry. apply Hsame. lia.
  - rewrite (Hsame i Hne).
    destruct (Z.testbit mk (Z.of_nat i)); cbn [length]; [|f_equal];
      apply (IH (S i) mk mk' s); auto; lia.
Qed.

(** X12. Disabling an Enabled cosigner of the set lowers [CountEnabled]
    by one, and enabling a Disabled one raises it by one. *)
Theorem SetMaskBit_CountEnabled (signer : Z) (cos : Cosigners) :
  0 <= signer < Z.of_nat (CountTotal cos) ->
  (MaskBitOf cos signer = Ret Enabled ->
   S (CountEnabled (snd (SetMaskBit signer Disabled cos))) = CountEnabled cos)
  /\ (MaskBitOf cos signer = Ret Disabled ->
      CountEnabled (snd (SetMaskBit signer Enabled cos)) = S (CountEnabled cos)).
Proof.
  intros Hs. unfold CountTotal in Hs.
  destruct (keys cos !! Z.to_nat signer) as [k|] eqn:Hk.
  2: { apply lookup_ge_None in Hk. lia. }
  assert (Es : signer = Z.of_nat (Z.to_nat signer)) by lia.
  unfold MaskBitOf. destruct (Z.ltb_spec signer 0); [lia|].
  rewrite Bit_eq_0, negb_involutive.
  split; intros [= Hbit].
  - destruct (SetMaskBit_some signer Disabled cos k)
      as (cos' & E & Hkeys & _ & Hbits); [lia | exact Hk |].
    rewrite E. cbn [snd]. rewrite !CountEnabled_length, Hkeys. symmetry.
    apply (pick_enabled_toggle_length _ 0 _ _ (Z.to_nat signer)).
    + lia.
    + now rewrite <- Es.
    + now rewrite Hbits, <- Es, Z.eqb_refl.
    + intros j Hj. rewrite Hbits.
      destruct (Z.eqb_spec signer (Z.of_nat j)); [lia | reflexivity].
  - destruct (SetMaskBit_some signer Enabled cos k)
      as (cos' & E & Hkeys & _ & Hbits); [lia | exact Hk |].
    rewrite E. cbn [snd]. rewrite !CountEnabled_length, Hkeys.
    apply (pick_enabled_toggle_length _ 0 _ _ (Z.to_nat signer)).
    + lia.
    + now rewrite Hbits, <- Es, Z.eqb_refl.
    + now rewrite <- Es.
    + intros j Hj. rewrite Hbits.
      destruct (Z.eqb_spec signer (Z.of_nat j)); [lia | reflexivity].
Qed.

(** X13. Changing the bit of a cosigner of the set and changing it back
    restores the mask, and the aggregate is again the same point. *)
Theorem SetMaskBit_undo (signer : Z) (bit : MaskBit) (cos : Cosigners) :
  0 <= signer < Z.of_nat (CountTotal cos) ->
  MaskBitOf cos signer = Ret bit ->
  aggr_ok cos ->
  let cos' := snd (SetMaskBit signer bit
                     (snd (SetMaskBit signer (negb bit) cos))) in
  mask cos' = mask cos /\ keys cos' = keys cos
  /\ ge_eqv (aggr cos') (aggr cos).
Proof using group_laws.
  intros Hs Hbit Hok cos'. unfold CountTotal in Hs.
  destruct (keys cos !! Z.to_nat signer) as [k|] eqn:Hk.
  2: { apply lookup_ge_None in Hk. lia. }
  assert (Hok' : aggr_ok cos').
  { unfold cos'. now do 2 apply SetMaskBit_aggr_ok. }
  destruct (SetMaskBit_some signer (negb bit) cos k)
    as (cos1 & E1 & Hkeys1 & _ & Hbits1); [lia | exact Hk |].
  destruct (SetMaskBit_some signer bit cos1 k)
    as (cos2 & E2 & Hkeys2 & _ & Hbits2); [lia | now rewrite Hkeys1 |].
  unfold cos' in *. rewrite E1 in *. cbn [snd] in *. rewrite E2 in *.
  cbn [snd] in *.
  assert (Hmask : mask cos2 = mask cos).
  { apply Z.bits_inj'. intros j _. rewrite Hbits2, Hbits1.
    destruct (Z.eqb_spec signer j) as [<-|]; [|reflexivity].
    revert Hbit. unfold MaskBitOf. destruct (Z.ltb_spec signer 0); [lia|].
    rewrite Bit_eq_0, negb_involutive. now intros [= ->]. }
  split; [exact Hmask|]. split; [congruence|].
  unfold aggr_ok, enabled_sum in *.
  rewrite Hok', Hok, Hmask, Hkeys2, Hkeys1. reflexivity.
Qed.

(** ** More on Commit and Cosign *)

Lemma Cosign_returns (privateKey : list byte) (secret : Secret)
      (message aggregateK aggregateR : list byte) :
  length privateKey = 64%nat -> length aggregateR = 32%nat ->
  valid secret = true ->
  Cosign privateKey secret message aggregateK aggregateR =
  (Ret (ScMulAdd (hramDigestReduced message aggregateK aggregateR)
                 (expandedSecretKey privateKey) (reduced secret)),
   mkSecret (zeros 32) false).
Proof.
  intros Hpk HR Hv. unfold Cosign, PrivateKeySize, PublicKeySize.
  now rewrite Hpk, HR, Hv.
Qed.

(** X14. One signing round of a cosigner. [Commit] fails only when the
    random source does; with 64 random bytes it returns the encoding of
    the base point times [r], for [r] the bytes reduced modulo [ell], and
    a valid secret holding [r]. The first [Cosign] with that secret
    returns the share [h * a + r mod ell], and every later [Cosign] with
    it panics. *)
Theorem Commit_then_Cosign
        (rnd privateKey message aggregateK aggregateR : list byte) :
  Commit None = None
  /\ (length rnd = 64%nat -> length privateKey = 64%nat ->
      length aggregateR = 32%nat ->
      exists (secret : Secret) (s : list byte) (secret' : Secret),
        Commit (Some rnd)
        = Some (ge_ToBytes (GeScalarMultBase (reduced secret)), secret)
        /\ valid secret = true
        /\ length (reduced secret) = 32%nat
        /\ le_combine (reduced secret) = le_combine rnd mod ell
        /\ Cosign privateKey secret message aggregateK aggregateR
           = (Ret s, secret')
        /\ le_combine s
           = (le_combine (hramDigestReduced message aggregateK aggregateR)
              * le_combine (expandedSecretKey privateKey)
              + le_combine rnd mod ell) mod ell
        /\ forall privateKey2 message2 aggregateK2 aggregateR2,
            returns (fst (Cosign privateKey2 secret' message2
                                 aggregateK2 aggregateR2)) = false).
Proof.
  split; [reflexivity|]. intros Hrnd Hpk HR.
  exists (mkSecret (ScReduce rnd) true). do 2 eexists.
  rewrite Cosign_returns by auto. cbn [Commit reduced valid].
  rewrite (copy_same_length (zeros 64) rnd) by (now rewrite length_zeros).
  split; [reflexivity|]. split; [reflexivity|].
  split; [apply length_ScReduce|]. split; [apply le_combine_ScReduce|].
  split; [reflexivity|]. split.
  - now rewrite le_combine_ScMulAdd, le_combine_ScReduce.
  - intros. now apply Cosign_invalid_secret.
Qed.

(** X15. [Cosign] reads the first 32 bytes of the private key only: two
    64-byte keys with the same first half give the same result. *)
Theorem Cosign_key_first_half
        (privateKey privateKey' : list byte) (secret : Secret)
        (message aggregateK aggregateR : list byte) :
  length privateKey = 64%nat -> length privateKey' = 64%nat ->
  firstn 32 privateKey = firstn 32 privateKey' ->
  Cosign privateKey secret message aggregateK aggregateR
  = Cosign privateKey' secret message aggregateK aggregateR.
Proof.
  intros H1 H2 Hhalf. unfold Cosign. now rewrite H1, H2, Hhalf.
Qed.

Lemma testbit_below (a n : Z) :
  0 <= n -> 0 <= a < 2 ^ (n + 1) ->
  (Z.testbit a n = false -> a < 2 ^ n)
  /\ (Z.testbit a n = true -> 2 ^ n <= a).
Proof.
  intros Hn Ha.
  pose proof (Z.testbit_spec' a n Hn) as Hspec.
  assert (Hp : 0 < 2 ^ n) by (apply Z.pow_pos_nonneg; lia).
  rewrite Z.pow_add_r, Z.pow_1_r in Ha by lia.
  assert (Hq : 0 <= a / 2 ^ n < 2).
  { split; [apply Z.div_pos; lia | apply Z.div_lt_upper_bound; lia]. }
  pose proof (Z.div_mod a (2 ^ n) ltac:(lia)) as Hdm.
  pose proof (Z.mod_pos_bound a (2 ^ n) Hp) as Hm.
  rewrite (Z.mod_small (a / 2 ^ n) 2) in Hspec by lia.
  split; intros Hb; rewrite Hb in Hspec; cbn in Hspec; nia.
Qed.

Lemma low_bits_clear (a : Z) :
  (forall j, 0 <= j < 3 -> Z.testbit a j = false) -> a mod 8 = 0.
Proof.
  intros H. change 8 with (2 ^ 3). apply Z.bits_inj'. intros j Hj.
  rewrite Z.testbit_mod_pow2, Z.bits_0 by lia.
  destruct (Z.ltb_spec j 3); [|reflexivity]. rewrite H by lia. reflexivity.
Qed.

Lemma length_expandedSecretKey (privateKey : list byte) :
  length (expandedSecretKey privateKey) = 32%nat.
Proof.
  unfold expandedSecretKey. now rewrite !length_alter, length_copy, length_zeros.
Qed.

(** X16. The expanded secret key that [Cosign] multiplies the challenge
    with is clamped whatever the digest is: as an integer it is a
    multiple of 8, at least [2^254] and below [2^255]. *)
Theorem expandedSecretKey_clamped (privateKey : list byte) :
  let a := le_combine (expandedSecretKey privateKey) in
  a mod 8 = 0 /\ 2 ^ 254 <= a < 2 ^ 255.
Proof.
  intros a.
  pose proof (length_expandedSecretKey privateKey) as Hlen.
  assert (Hrange : 0 <= a < 2 ^ 256).
  { pose proof (le_combine_bound (expandedSecretKey privateKey)) as Hb.
    rewrite Hlen in Hb. exact Hb. }
  unfold a, expandedSecretKey in *. rewrite clamp_in_place in *.
  set (e0 := copy (zeros 32) _) in *.
  assert (H0 : exists b0, e0 !! 0%nat = Some b0).
  { apply lookup_lt_is_Some. unfold clamp in Hlen.
    rewrite length_imap in Hlen. lia. }
  assert (H31 : exists b31, e0 !! 31%nat = Some b31).
  { apply lookup_lt_is_Some. unfold clamp in Hlen.
    rewrite length_imap in Hlen. lia. }
  destruct H0 as [b0 H0]. destruct H31 as [b31 H31].
  assert (E0 : clamp e0 !! 0%nat
               = Some (byte.of_Z (Z.land (byte.unsigned b0) 248))).
  { unfold clamp. now rewrite list_lookup_imap, H0. }
  assert (E31 : clamp e0 !! 31%nat
                = Some (byte.of_Z (Z.lor (Z.land (byte.unsigned b31) 63) 64))).
  { unfold clamp. now rewrite list_lookup_imap, H31. }
  assert (Hlow : forall j, 0 <= j < 3 ->
                           Z.testbit (le_combine (clamp e0)) j = false).
  { intros j Hj. replace j with (8 * Z.of_nat 0 + j) by lia.
    rewrite (testbit_le_combine _ _ _ _ E0) by lia.
    rewrite testbit_of_Z, Z.land_spec.
    assert (Hc : j = 0 \/ j = 1 \/ j = 2) by lia.
    destruct Hc as [-> | [-> | ->]]; cbn; now rewrite andb_false_r. }
  assert (H254 : Z.testbit (le_combine (clamp e0)) 254 = true).
  { change 254 with (8 * Z.of_nat 31 + 6).
    rewrite (testbit_le_combine _ _ _ _ E31) by lia.
    rewrite testbit_of_Z, Z.lor_spec. cbn. now rewrite orb_true_r. }
  assert (H255 : Z.testbit (le_combine (clamp e0)) 255 = false).
  { change 255 with (8 * Z.of_nat 31 + 7).
    rewrite (testbit_le_combine _ _ _ _ E31) by lia.
    rewrite testbit_of_Z, Z.lor_spec, Z.land_spec. cbn.
    now rewrite andb_false_r. }
  split; [now apply low_bits_clear|].
  assert (Hlt : le_combine (clamp e0) < 2 ^ 255).
  { apply (proj1 (testbit_below _ 255 ltac:(lia) Hrange) H255). }
  split; [|exact Hlt].
  apply (proj2 (testbit_below _ 254 ltac:(lia)
                  (conj (proj1 Hrange) Hlt)) H254).
Qed.

Lemma pick_enabled_map {A B} (f : A -> B) (l : list A) :
  forall (mk : Z) (i : nat),
    pick_enabled mk i (map f l) = map f (pick_enabled mk i l).
Proof.
  induction l as [|x l IH]; intros mk i; [reflexivity|].
  cbn [map pick_enabled]. rewrite IH.
  now destruct (Z.testbit mk (Z.of_nat i)).
Qed.

Lemma cosign_part_ready (message aggregateK aggregateR : list byte)
      (signer : list byte * Secret) :
  length aggregateR = 32%nat -> ready signer = true ->
  cosign_part message aggregateK aggregateR signer
  = ScMulAdd (hramDigestReduced message aggregateK aggregateR)
             (expandedSecretKey (fst signer)) (reduced (snd signer)).
Proof.
  intros HR [Hpk Hv]%andb_true_iff. apply Nat.eqb_eq in Hpk.
  unfold cosign_part. now rewrite Cosign_returns.
Qed.

Lemma scalar_sum_parts (message aggregateK aggregateR : list byte)
      (signers : list (list byte * Secret)) :
  length aggregateR = 32%nat -> forallb ready signers = true ->
  forallb (fun p => (length p =? 32)%nat)
          (map (cosign_part message aggregateK aggregateR) signers) = true
  /\ scalar_sum (map (cosign_part message aggregateK aggregateR) signers)
     = (le_combine (hramDigestReduced message aggregateK aggregateR)
        * fold_right Z.add 0
            (map (fun s => le_combine (expandedSecretKey (fst s))) signers)
        + fold_right Z.add 0
            (map (fun s => le_combine (reduced (snd s))) signers)) mod ell.
Proof.
  intros HR. induction signers as [|s signers IH]; intros Hall.
  - split; [reflexivity|]. cbn. now rewrite Z.mul_0_r.
  - cbn [forallb] in Hall. apply andb_true_iff in Hall as [Hs Hall].
    destruct (IH Hall) as [IHlen IHsum]. cbn [map forallb fold_right].
    rewrite (cosign_part_ready _ _ _ s HR Hs). split.
    + now rewrite length_ScMulAdd, IHlen.
    + rewrite scalar_sum_cons, IHsum, le_combine_ScMulAdd.
      rewrite Z.add_mod_idemp_l, Z.add_mod_idemp_r
        by (pose proof ell_pos; lia).
      f_equal. lia.
Qed.

Lemma AggregateSignature_sum (cos : Cosigners) (aggregateR : list byte)
      (sigParts : list (list byte)) :
  length aggregateR = 32%nat ->
  length sigParts = length (keys cos) ->
  forallb (fun p => (length p =? 32)%nat)
          (pick_enabled (mask cos) 0 sigParts) = true ->
  exists sbar : list byte,
    AggregateSignature cos aggregateR sigParts
    = Ret (Some (aggregateR ++ sbar ++ Mask cos))
    /\ length sbar = 32%nat
    /\ le_combine sbar = scalar_sum (pick_enabled (mask cos) 0 sigParts).
Proof.
  intros HR Hlen Hall. unfold AggregateSignature, PublicKeySize.
  rewrite HR. cbn [Nat.eqb negb].
  destruct (AggregateSignature_loop_sum cos sigParts (keys cos) 0 sigParts
              (zeros 32) (zeros 32))
    as (sbar & E & L & S);
    auto using length_zeros, forallb_length_32.
  exists sbar. rewrite E. split; [|split; [exact L|]].
  - now rewrite signature_layout.
  - rewrite S, le_combine_zeros by (now rewrite le_combine_zeros).
    unfold scalar_sum. apply Z.mod_mod. pose proof ell_pos. lia.
Qed.

(** X17. A whole round. When every Enabled cosigner calls [Cosign] with
    its 64-byte key and a valid secret, on the same message, aggregate key
    and 32-byte aggregate commit, the signature that [AggregateSignature]
    builds from the results carries the scalar
    [h * (sum of the keys' scalars) + (sum of the secrets) mod ell]; what
    the Disabled cosigners sent, or whether they sent anything, does not
    matter. *)
Theorem AggregateSignature_of_Cosign
        (cos : Cosigners) (message aggregateK aggregateR : list byte)
        (signers : list (list byte * Secret)) :
  length aggregateR = 32%nat ->
  length signers = CountTotal cos ->
  forallb ready (pick_enabled (mask cos) 0 signers) = true ->
  exists sbar : list byte,
    AggregateSignature cos aggregateR
      (map (cosign_part message aggregateK aggregateR) signers)
    = Ret (Some (aggregateR ++ sbar ++ Mask cos))
    /\ le_combine sbar
       = (le_combine (hramDigestReduced message aggregateK aggregateR)
          * fold_right Z.add 0
              (map (fun s => le_combine (expandedSecretKey (fst s)))
                   (pick_enabled (mask cos) 0 signers))
          + fold_right Z.add 0
              (map (fun s => le_combine (reduced (snd s)))
                   (pick_enabled (mask cos) 0 signers))) mod ell.
Proof.
  intros HR Hlen Hready.
  destruct (scalar_sum_parts message aggregateK aggregateR _ HR Hready)
    as [Hlen32 Hsum].
  destruct (AggregateSignature_sum cos aggregateR
              (map (cosign_part message aggregateK aggregateR) signers))
    as (sbar & E & _ & S).
  - exact HR.
  - now rewrite length_map.
  - now rewrite pick_enabled_map.
  - exists sbar. split; [exact E|]. now rewrite S, pick_enabled_map.
Qed.

(** ** More on aggregation *)

Lemma AggregateCommit_loop_disabled (cos : Cosigners)
      (commits : list (list byte)) (ks : list ge) :
  forall (i : nat) (commitBytes : list byte) (aggR : ge),
    (forall j : nat, (i <= j < i + length ks)%nat ->
                     maskBitAt cos j = Disabled) ->
    AggregateCommit_loop cos commits i ks commitBytes aggR = Ret (Some aggR).
Proof.
  induction ks as [|k ks IH]; intros i commitBytes aggR H; [reflexivity|].
  cbn [AggregateCommit_loop]. rewrite (H i) by (cbn [length]; lia).
  cbn [Bool.eqb Disabled]. apply IH. intros j Hj. apply H. cbn [length]. lia.
Qed.

Lemma AggregateSignature_loop_disabled (cos : Cosigners)
      (sigParts : list (list byte)) (ks : list ge) :
  forall (i : nat) (aggS indivS : list byte),
    (forall j : nat, (i <= j < i + length ks)%nat ->
                     maskBitAt cos j = Disabled) ->
    AggregateSignature_loop cos sigParts i ks aggS indivS = Ret (Some aggS).
Proof.
  induction ks as [|k ks IH]; intros i aggS indivS H; [reflexivity|].
  cbn [AggregateSignature_loop]. rewrite (H i) by (cbn [length]; lia).
  cbn [Bool.eqb Disabled]. apply IH. intros j Hj. apply H. cbn [length]. lia.
Qed.

(** X18. With every cosigner Disabled (or no cosigner at all) the
    aggregates are those of the empty sum and nothing is read from the
    inputs: [SetMask] leaves the identity as aggregate key,
    [AggregateCommit] returns the encoding of the identity for any list of
    commits, and [AggregateSignature] returns
    [aggregateR ++ 32 zero bytes ++ Mask()] for any list of parts. *)
Theorem all_disabled_aggregates
        (cos : Cosigners) (m aggregateR : list byte)
        (commits sigParts : list (list byte)) :
  ((forall i : nat, (i < CountTotal cos)%nat -> packed_bit m i = true) ->
   aggr (SetMask m cos) = ge_Zero
   /\ AggregatePublicKey (SetMask m cos) = ge_ToBytes ge_Zero)
  /\ ((forall i : nat, (i < CountTotal cos)%nat -> maskBitAt cos i = Disabled) ->
      AggregateCommit cos commits = Ret (Some (ge_ToBytes ge_Zero))
      /\ (length aggregateR = 32%nat ->
          AggregateSignature cos aggregateR sigParts
          = Ret (Some (aggregateR ++ zeros 32 ++ Mask cos)))).
Proof.
  unfold CountTotal. split.
  - intros H.
    assert (E : aggr (SetMask m cos) = ge_Zero).
    { rewrite aggr_SetMask_sum. unfold enabled_sum.
      rewrite pick_enabled_none; [reflexivity|].
      intros j Hj. rewrite keys_SetMask in Hj.
      rewrite testbit_SetMask, Nat2Z.id, H by lia. zbool; reflexivity. }
    split; [exact E|]. unfold AggregatePublicKey. now rewrite E.
  - intros H. split.
    + unfold AggregateCommit.
      rewrite AggregateCommit_loop_disabled; [reflexivity|].
      intros j Hj. apply H. lia.
    + intros HR. unfold AggregateSignature, PublicKeySize.
      rewrite HR. cbn [Nat.eqb negb].
      rewrite AggregateSignature_loop_disabled
        by (intros j Hj; apply H; lia).
      now rewrite signature_layout by auto using length_zeros.
Qed.

Lemma AggregateCommit_loop_short (cos : Cosigners) (commits : list (list byte))
      (ks : list ge) :
  forall (i : nat) (commitBytes : list byte) (aggR : ge),
    length commitBytes = 32%nat ->
    forallb decodes (pick_enabled (mask cos) i (skipn i commits)) = true ->
    (exists j : nat, (i <= j < i + length ks)%nat
                     /\ maskBitAt cos j = Enabled
                     /\ (length commits <= j)%nat) ->
    AggregateCommit_loop cos commits i ks commitBytes aggR
    = Panic IndexOutOfRange.
Proof.
  induction ks as [|k ks IH]; intros i buf aggR Hbuf Hok (j & Hj & Hen & Hshort);
    cbn [length] in Hj; [lia|].
  cbn [AggregateCommit_loop].
  destruct (commits !! i) as [c|] eqn:Hc.
  - rewrite (drop_S _ _ _ Hc) in Hok. cbn [pick_enabled] in Hok.
    apply lookup_lt_Some in Hc.
    rewrite maskBitAt_testbit.
    destruct (Z.testbit (mask cos) (Z.of_nat i)); cbn [Bool.eqb Disabled].
    + apply IH; auto. exists j. repeat split; auto; lia.
    + cbn [forallb] in Hok. apply andb_true_iff in Hok as [Hdec Hok].
      unfold decodes, PublicKeySize in *.
      apply andb_true_iff in Hdec as [Hlen Hdec]. rewrite Hlen. cbn [negb].
      apply Nat.eqb_eq in Hlen.
      rewrite (copy_same_length buf c) by lia.
      destruct (ge_FromBytes c); [|discriminate].
      apply IH; auto. exists j. repeat split; auto; lia.
  - apply lookup_ge_None in Hc. rewrite drop_ge in Hok by lia.
    destruct (Nat.eq_dec i j) as [->|Hne].
    + now rewrite Hen.
    + destruct (maskBitAt cos i); cbn [Bool.eqb Disabled]; [|reflexivity].
      apply IH; auto.
      * now rewrite drop_ge by lia.
      * exists j. repeat split; auto; lia.
Qed.

Lemma AggregateSignature_loop_short (cos : Cosigners)
      (sigParts : list (list byte)) (ks : list ge) :
  forall (i : nat) (aggS indivS : list byte),
    forallb (fun p => (length p =? 32)%nat)
            (pick_enabled (mask cos) i (skipn i sigParts)) = true ->
    (exists j : nat, (i <= j < i + length ks)%nat
                     /\ maskBitAt cos j = Enabled
                     /\ (length sigParts <= j)%nat) ->
    AggregateSignature_loop cos sigParts i ks aggS indivS
    = Panic IndexOutOfRange.
Proof.
  induction ks as [|k ks IH]; intros i aggS indivS Hok (j & Hj & Hen & Hshort);
    cbn [length] in Hj; [lia|].
  cbn [AggregateSignature_loop].
  destruct (sigParts !! i) as [p|] eqn:Hp.
  - rewrite (drop_S _ _ _ Hp) in Hok. cbn [pick_enabled] in Hok.
    apply lookup_lt_Some in Hp.
    rewrite maskBitAt_testbit.
    destruct (Z.testbit (mask cos) (Z.of_nat i)); cbn [Bool.eqb Disabled].
    + apply IH; auto. exists j. repeat split; auto; lia.
    + cbn [forallb] in Hok. apply andb_true_iff in Hok as [Hlen Hok].
      rewrite Hlen. cbn [negb].
      apply IH; auto. exists j. repeat split; auto; lia.
  - apply lookup_ge_None in Hp. rewrite drop_ge in Hok by lia.
    destruct (Nat.eq_dec i j) as [->|Hne].
    + now rewrite Hen.
    + destruct (maskBitAt cos i); cbn [Bool.eqb Disabled]; [|reflexivity].
      apply IH; auto.
      * now rewrite drop_ge by lia.
      * exists j. repeat split; auto; lia.
Qed.

(** X19. A list that is too short for an Enabled cosigner makes the
    aggregation panic (index out of range) rather than return nil: this
    holds for [AggregateCommit] when the Enabled entries that are present
    decode, and for [AggregateSignature] (with a 32-byte commit) when the
    Enabled parts that are present have 32 bytes. *)
Theorem aggregation_short_list_panics
        (cos : Cosigners) (aggregateR : list byte)
        (commits sigParts : list (list byte)) (j : nat) :
  (j < CountTotal cos)%nat -> maskBitAt cos j = Enabled ->
  ((length commits <= j)%nat ->
   forallb decodes (pick_enabled (mask cos) 0 commits) = true ->
   AggregateCommit cos commits = Panic IndexOutOfRange)
  /\ ((length sigParts <= j)%nat ->
      length aggregateR = 32%nat ->
      forallb (fun p => (length p =? 32)%nat)
              (pick_enabled (mask cos) 0 sigParts) = true ->
      AggregateSignature cos aggregateR sigParts = Panic IndexOutOfRange).
Proof.
  unfold CountTotal. intros Hj Hen. split.
  - intros Hshort Hok. unfold AggregateCommit.
    rewrite AggregateCommit_loop_short; auto using length_zeros.
    exists j. repeat split; auto; lia.
  - intros Hshort HR Hok. unfold AggregateSignature, PublicKeySize.
    rewrite HR. cbn [Nat.eqb negb].
    rewrite AggregateSignature_loop_short; auto.
    exists j. repeat split; auto; lia.
Qed.

Lemma AggregateSignature_loop_length (cos : Cosigners)
      (sigParts : list (list byte)) (ks : list ge) :
  forall (i : nat) (aggS indivS aggS' : list byte),
    length aggS = 32%nat ->
    AggregateSignature_loop cos sigParts i ks aggS indivS = Ret (Some aggS') ->
    length aggS' = 32%nat.
Proof.
  induction ks as [|k ks IH]; intros i aggS indivS aggS' Hlen;
    cbn [AggregateSignature_loop].
  - now intros [= <-].
  - destruct (Bool.eqb (maskBitAt cos i) Disabled); [now apply IH|].
    destruct (sigParts !! i) as [p|]; [|discriminate].
    destruct (negb (length p =? 32)%nat); [discriminate|].
    apply IH. apply length_ScMulAdd.
Qed.

Lemma AggregateSignature_shape (cos : Cosigners) (aggregateR : list byte)
      (sigParts : list (list byte)) (sig : list byte) :
  AggregateSignature cos aggregateR sigParts = Ret (Some sig) ->
  exists sbar : list byte,
    length aggregateR = 32%nat /\ length sbar = 32%nat
    /\ sig = aggregateR ++ sbar ++ Mask cos.
Proof.
  unfold AggregateSignature, PublicKeySize.
  destruct (Nat.eqb_spec (length aggregateR) 32) as [HR|]; cbn [negb];
    [|discriminate].
  destruct (AggregateSignature_loop cos sigParts 0 (keys cos) (zeros 32) (zeros 32))
    as [[sbar|]|] eqn:E; try discriminate.
  apply AggregateSignature_loop_length in E; [|apply length_zeros].
  rewrite signature_layout by auto. intros [= <-]. eauto.
Qed.

(** X20. The signature that [AggregateSignature] returns carries the
    leader's mask to the verifier: it has the length that [Verify]
    expects, begins with the aggregate commit, and [Verify] on any set
    with the same keys ends with the leader's packed mask, the same
    Enabled cosigners and the sum of their keys as aggregate. *)
Theorem AggregateSignature_then_Verify
        (cos cos2 : Cosigners) (aggregateR message sig : list byte)
        (sigParts : list (list byte)) :
  AggregateSignature cos aggregateR sigParts = Ret (Some sig) ->
  keys cos2 = keys cos ->
  let cos3 := snd (Verify cos2 message sig) in
  length sig = (64 + MaskLen cos2)%nat
  /\ firstn 32 sig = aggregateR
  /\ Mask cos3 = Mask cos
  /\ (forall i : nat, (i < CountTotal cos)%nat ->
                      maskBitAt cos3 i = maskBitAt cos i)
  /\ aggr cos3 = enabled_sum cos.
Proof.
  intros Hsig Hkeys cos3.
  destruct (AggregateSignature_shape _ _ _ _ Hsig) as (sbar & HR & HS & ->).
  assert (HL : MaskLen cos2 = MaskLen cos) by (unfold MaskLen; now rewrite Hkeys).
  assert (Hlen : length (aggregateR ++ sbar ++ Mask cos) = (64 + MaskLen cos2)%nat).
  { rewrite !length_app, HR, HS, length_Mask, HL. lia. }
  assert (Htrailer : skipn 64 (aggregateR ++ sbar ++ Mask cos) = Mask cos).
  { rewrite app_assoc. apply drop_app_length'. rewrite length_app. lia. }
  assert (E3 : cos3 = SetMask (Mask cos) cos2).
  { unfold cos3. rewrite snd_Verify. unfold SignatureSize.
    now rewrite Hlen, Nat.eqb_refl, Htrailer. }
  assert (Hbits : forall i : nat, (i < length (keys cos))%nat ->
                    maskBitAt cos3 i = maskBitAt cos i).
  { intros i Hi. rewrite E3, !maskBitAt_testbit, testbit_SetMask, Nat2Z.id.
    rewrite packed_bit_Mask, Hkeys. zbool; bsimpl; reflexivity. }
  split; [exact Hlen|]. split; [now apply take_app_length'|].
  split; [|split; [exact Hbits|]].
  - apply packed_bit_inj.
    + rewrite !length_Mask. unfold MaskLen. now rewrite E3, keys_SetMask, Hkeys.
    + intros i. rewrite !packed_bit_Mask. rewrite E3 at 1.
      rewrite keys_SetMask, Hkeys.
      destruct (Nat.ltb_spec i (length (keys cos))); [|reflexivity].
      cbn [andb]. rewrite <- !maskBitAt_testbit. now apply Hbits.
  - rewrite E3, aggr_SetMask_sum. unfold enabled_sum.
    rewrite keys_SetMask, Hkeys. f_equal. apply pick_enabled_ext.
    intros i Hi. rewrite <- E3, <- !maskBitAt_testbit. apply Hbits. lia.
Qed.

(** ** More on verification *)

Lemma ConstantTimeCompare_eq (x y : list byte) :
  ConstantTimeCompare x y = 1 <-> x = y.
Proof.
  unfold ConstantTimeCompare.
  destruct (Nat.eqb_spec (length x) (length y)) as [Hlen|Hlen]; cbn [andb].
  - revert y Hlen. induction x as [|a x IH]; intros [|b y] Hlen;
      try discriminate; cbn [combine forallb fst snd].
    + split; reflexivity.
    + destruct (Byte.eqb a b) eqn:Hab; cbn [andb].
      * apply Byte.byte_dec_bl in Hab. subst b.
        injection Hlen as Hlen. rewrite (IH y Hlen).
        split; [now intros -> | now intros [= ->]].
      * split; [discriminate|]. intros [= -> _].
        rewrite (Byte.byte_dec_lb (eq_refl b)) in Hab. discriminate.
  - split; [discriminate|]. intros ->. contradiction.
Qed.

Lemma top_bits_clear (sigS : list byte) :
  length sigS = 32%nat ->
  match sigS !! 31%nat with
  | Some b => byte_nonzero (byte.and b (byte.of_Z 224))
  | None => false
  end = false <-> le_combine sigS < 2 ^ 253.
Proof.
  intros Hlen.
  assert (Hrange : 0 <= le_combine sigS < 2 ^ 256).
  { pose proof (le_combine_bound sigS) as Hb. rewrite Hlen in Hb. exact Hb. }
  split.
  - intros Hclear.
    assert (Hbits : forall t, 253 <= t < 256 ->
                              Z.testbit (le_combine sigS) t = false).
    { intros t Ht. apply not_true_iff_false. intros Hset.
      rewrite (top_bits_byte_31 sigS t Hlen Ht Hset) in Hclear. discriminate. }
    assert (H255 : le_combine sigS < 2 ^ 255).
    { apply (proj1 (testbit_below _ 255 ltac:(lia) Hrange)), Hbits. lia. }
    assert (H254 : le_combine sigS < 2 ^ 254).
    { apply (proj1 (testbit_below _ 254 ltac:(lia)
                      (conj (proj1 Hrange) H255))), Hbits. lia. }
    apply (proj1 (testbit_below _ 253 ltac:(lia)
                    (conj (proj1 Hrange) H254))), Hbits. lia.
  - intros Hsmall.
    destruct (sigS !! 31%nat) as [b|] eqn:Hb; [|reflexivity].
    unfold byte_nonzero. apply negb_false_iff, Z.eqb_eq, Z.bits_inj'.
    intros t Ht. rewrite testbit_byte_and, Z.bits_0.
    destruct (Z.lt_ge_cases t 5) as [Hlow|Hhigh].
    { assert (Hc : t = 0 \/ t = 1 \/ t = 2 \/ t = 3 \/ t = 4) by lia.
      destruct Hc as [-> | [-> | [-> | [-> | ->]]]]; apply andb_false_r. }
    destruct (Z.lt_ge_cases t 8) as [Hin|Hout].
    2: { now rewrite testbit_unsigned_high by lia. }
    rewrite <- (testbit_le_combine sigS 31 b t Hb) by lia.
    replace (Z.testbit (le_combine sigS) (8 * Z.of_nat 31 + t)) with false;
      [reflexivity|].
    symmetry. destruct (Z.eq_dec (le_combine sigS) 0) as [->|Hnz];
      [apply Z.bits_0|].
    apply Z.bits_above_log2; [lia|].
    assert (Z.log2 (le_combine sigS) < 253)
      by (apply Z.log2_lt_pow2; lia).
    lia.
Qed.

Lemma verify_accepts (cos : Cosigners) (message aggR sigR sigS : list byte)
      (sigA : ge) :
  fst (verify cos message aggR sigR sigS sigA) = true <->
  length sigR = 32%nat /\ length sigS = 32%nat
  /\ le_combine sigS < 2 ^ 253
  /\ sigR = pge_ToBytes
              (GeDoubleScalarMultVartime
                 (hramDigestReduced message (ge_ToBytes (aggr cos)) aggR)
                 (negated sigA) sigS).
Proof.
  unfold verify.
  destruct (Nat.eqb_spec (length sigR) 32) as [HR|HR]; cbn [negb orb].
  2: { cbn. split; [discriminate | tauto]. }
  destruct (Nat.eqb_spec (length sigS) 32) as [HS|HS]; cbn [negb orb].
  2: { cbn. split; [discriminate | tauto]. }
  pose proof (top_bits_clear sigS HS) as Htop.
  destruct (match sigS !! 31%nat with
            | Some b => byte_nonzero (byte.and b (byte.of_Z 224))
            | None => false
            end); cbn [fst].
  - split; [discriminate|]. intros (_ & _ & Hsmall & _).
    apply Htop in Hsmall. discriminate.
  - rewrite (copy_same_length (zeros 32) sigS) by (now rewrite length_zeros).
    rewrite Z.eqb_eq, ConstantTimeCompare_eq.
    split; [intros E | intros (_ & _ & _ & E)].
    + repeat split; auto. now apply Htop.
    + exact E.
Qed.

(** C9. [verify] negates the X and T coordinates of its own copy of the
    point, never the set's. When [Verify] gets as far as the
    cryptographic check (right length, policy accepting), its result is
    decided against the negated aggregate, and the set it leaves behind is
    the one [SetMask] built, whose cached aggregate is still the sum of
    the enabled keys, not its negation. [VerifyPart] on a cosigner
    decides against the negated key of that cosigner and returns the set
    exactly as it got it, so neither that key nor the cached aggregate
    is changed. In every other case too (wrong length, policy rejection,
    panic) the keys are the same and the cache invariant is kept. *)
Theorem verify_keeps_aggr (cos : Cosigners) (message : list byte) :
  (forall sig : list byte,
      length sig = (64 + MaskLen cos)%nat ->
      Check (policy (SetMask (skipn 64 sig) cos))
            (SetMask (skipn 64 sig) cos) = true ->
      (fst (Verify cos message sig) = true <->
       le_combine (firstn 32 (skipn 32 sig)) < 2 ^ 253
       /\ firstn 32 sig
          = pge_ToBytes
              (GeDoubleScalarMultVartime
                 (hramDigestReduced
                    message
                    (ge_ToBytes (aggr (SetMask (skipn 64 sig) cos)))
                    (firstn 32 sig))
                 (negated (aggr (SetMask (skipn 64 sig) cos)))
                 (firstn 32 (skipn 32 sig))))
      /\ snd (Verify cos message sig) = SetMask (skipn 64 sig) cos
      /\ aggr (snd (Verify cos message sig))
         = enabled_sum (snd (Verify cos message sig)))
  /\ (forall (aggR : list byte) (signer : Z) (indR indS : list byte) (k : ge),
         0 <= signer -> keys cos !! Z.to_nat signer = Some k ->
         (fst (VerifyPart cos message aggR signer indR indS) = Ret true <->
          length indR = 32%nat /\ length indS = 32%nat
          /\ le_combine indS < 2 ^ 253
          /\ indR = pge_ToBytes
                      (GeDoubleScalarMultVartime
                         (hramDigestReduced message
                            (ge_ToBytes (aggr cos)) aggR)
                         (negated k) indS))
         /\ snd (VerifyPart cos message aggR signer indR indS) = cos)
  /\ (forall (aggR sigR sigS : list byte) (sigA : ge),
         snd (verify cos message aggR sigR sigS sigA) = cos)
  /\ (forall (aggR : list byte) (signer : Z) (indR indS : list byte),
         snd (VerifyPart cos message aggR signer indR indS) = cos)
  /\ (forall sig : list byte,
         (snd (Verify cos message sig) = cos
          \/ snd (Verify cos message sig) = SetMask (skipn 64 sig) cos)
         /\ keys (snd (Verify cos message sig)) = keys cos
         /\ (aggr_ok cos -> aggr_ok (snd (Verify cos message sig)))).
Proof using ge_eqv_equiv.
  assert (HPart : forall aggR signer indR indS,
             snd (VerifyPart cos message aggR signer indR indS) = cos).
  { intros aggR signer indR indS. unfold VerifyPart.
    destruct (signer <? 0); [reflexivity|].
    destruct (keys cos !! Z.to_nat signer) as [k|]; [|reflexivity].
    pose proof (snd_verify cos message aggR indR indS k) as E.
    now destruct (verify cos message aggR indR indS k). }
  split; [|split; [|split; [|split]]].
  - intros sig Hlen Hpol.
    assert (Hstate : snd (Verify cos message sig) = SetMask (skipn 64 sig) cos).
    { rewrite snd_Verify. unfold SignatureSize. now rewrite Hlen, Nat.eqb_refl. }
    split; [|split; [exact Hstate|]].
    + unfold Verify, SignatureSize. rewrite Hlen, Nat.eqb_refl. cbn [negb].
      rewrite Hpol. cbn [negb]. rewrite verify_accepts.
      assert (H1 : length (firstn 32 sig) = 32%nat)
        by (rewrite length_take; lia).
      assert (H2 : length (firstn 32 (skipn 32 sig)) = 32%nat)
        by (rewrite length_take, length_drop; lia).
      tauto.
    + rewrite Hstate. apply aggr_SetMask_sum.
  - intros aggR signer indR indS k Hs Hk. split; [|apply HPart].
    unfold VerifyPart. destruct (Z.ltb_spec signer 0); [lia|]. rewrite Hk.
    pose proof (verify_accepts cos message aggR indR indS k) as Hacc.
    destruct (verify cos message aggR indR indS k) as [ok cos1].
    cbn [fst] in *. rewrite <- Hacc.
    split; [now intros [= ->] | now intros ->].
  - intros. apply snd_verify.
  - exact HPart.
  - intros sig. rewrite snd_Verify.
    destruct (length sig =? _)%nat.
    + split; [now right|]. split; [apply keys_SetMask|].
      intros _. unfold aggr_ok. now rewrite <- aggr_SetMask_sum.
    + split; [now left|]. split; [reflexivity|]. auto.
Qed.

(** X21. [Verify] accepts exactly when the signature has [64 + MaskLen]
    bytes, the policy accepts the set with the signature's mask, and
    [verify] accepts the first 32 bytes as commit and the next 32 as
    scalar against the aggregate of the cosigners that this mask
    enables. *)
Theorem Verify_accepts (cos : Cosigners) (message sig : list byte) :
  let cos' := SetMask (skipn 64 sig) cos in
  fst (Verify cos message sig) = true <->
  length sig = (64 + (CountTotal cos + 7) / 8)%nat
  /\ Check (policy cos) cos' = true
  /\ le_combine (firstn 32 (skipn 32 sig)) < 2 ^ 253
  /\ firstn 32 sig
     = pge_ToBytes
         (GeDoubleScalarMultVartime
            (hramDigestReduced message (ge_ToBytes (enabled_sum cos'))
                               (firstn 32 sig))
            (negated (enabled_sum cos')) (firstn 32 (skipn 32 sig))).
Proof.
  intros cos'. unfold CountTotal. rewrite <- MaskLen_div.
  unfold Verify, SignatureSize. fold cos'.
  destruct (Nat.eqb_spec (length sig) (64 + MaskLen cos)) as [Hlen|Hlen];
    cbn [negb].
  2: { cbn. split; [discriminate | tauto]. }
  unfold cos' at 1. rewrite policy_SetMask. fold cos'.
  destruct (Check (policy cos) cos') eqn:Hpol; cbn [negb].
  2: { cbn. split; [discriminate|]. intros (_ & ? & _). discriminate. }
  rewrite verify_accepts. unfold cos' at 1 2. rewrite aggr_SetMask_sum.
  fold cos'.
  assert (H1 : length (firstn 32 sig) = 32%nat) by (rewrite length_take; lia).
  assert (H2 : length (firstn 32 (skipn 32 sig)) = 32%nat)
    by (rewrite length_take, length_drop; lia).
  tauto.
Qed.

(** X22. [VerifyPart] panics exactly when the index is not one of the
    cosigners. For a cosigner it leaves the set as it is and returns
    true exactly when the individual commit and the part have 32 bytes,
    the part is below [2^253], and the commit is the encoding of the
    double scalar multiplication with that cosigner's negated key; the
    challenge is taken over the aggregate commit and the cached aggregate
    key. *)
Theorem VerifyPart_result (cos : Cosigners) (message aggR : list byte)
        (signer : Z) (indR indS : list byte) :
  (returns (fst (VerifyPart cos message aggR signer indR indS)) = false <->
   signer < 0 \/ Z.of_nat (CountTotal cos) <= signer)
  /\ (forall k : ge,
         0 <= signer -> keys cos !! Z.to_nat signer = Some k ->
         exists ok : bool,
           VerifyPart cos message aggR signer indR indS = (Ret ok, cos)
           /\ (ok = true <->
               length indR = 32%nat /\ length indS = 32%nat
               /\ le_combine indS < 2 ^ 253
               /\ indR = pge_ToBytes
                           (GeDoubleScalarMultVartime
                              (hramDigestReduced message
                                 (ge_ToBytes (aggr cos)) aggR)
                              (negated k) indS))).
Proof.
  unfold CountTotal, VerifyPart. split.
  - destruct (Z.ltb_spec signer 0) as [Hneg|Hs].
    { cbn. split; [now left | reflexivity]. }
    destruct (keys cos !! Z.to_nat signer) as [k|] eqn:Hk.
    + apply lookup_lt_Some in Hk.
      pose proof (snd_verify cos message aggR indR indS k) as E.
      destruct (verify cos message aggR indR indS k). cbn.
      split; [discriminate | lia].
    + apply lookup_ge_None in Hk. cbn. split; [intros _; lia | reflexivity].
  - intros k Hs Hk. destruct (Z.ltb_spec signer 0); [lia|]. rewrite Hk.
    pose proof (snd_verify cos message aggR indR indS k) as E.
    pose proof (verify_accepts cos message aggR indR indS k) as Hacc.
    destruct (verify cos message aggR indR indS k) as [ok cos1].
    cbn [fst snd] in *. subst cos1. exists ok. split; [reflexivity | exact Hacc].
Qed.
End Cosi.

(** ** The small instance satisfies the assumptions *)

Lemma Toy_ge_Add_proper : Proper (eq ==> eq ==> eq) Toy.ge_Add.
Proof. intros a a' -> b b' ->. reflexivity. Qed.

Lemma Toy_ge_Sub_proper : Proper (eq ==> eq ==> eq) Toy.ge_Sub.
Proof. intros a a' -> b b' ->. reflexivity. Qed.

Lemma Toy_ge_Add_assoc (a b c : Toy.ge) :
  Toy.ge_Add (Toy.ge_Add a b) c = Toy.ge_Add a (Toy.ge_Add b c).
Proof. unfold Toy.ge_Add. cbn. f_equal; lia. Qed.

Lemma Toy_ge_Add_comm (a b : Toy.ge) : Toy.ge_Add a b = Toy.ge_Add b a.
Proof. unfold Toy.ge_Add. f_equal; lia. Qed.

Lemma Toy_ge_Sub_Add (a b : Toy.ge) : Toy.ge_Sub (Toy.ge_Add a b) b = a.
Proof. destruct a, b. unfold Toy.ge_Sub, Toy.ge_Add. cbn. f_equal; lia. Qed.

Lemma Toy_sha512_length (m : list byte) : length (Toy.sha512 m) = 64%nat.
Proof. apply length_le_split. Qed.

Lemma Toy_ge_ToBytes_length (p : Toy.ge) : length (Toy.ge_ToBytes p) = 32%nat.
Proof. apply length_le_split. Qed.

(** ** The theorems at concrete inputs *)

Local Abbreviation toy_keys :=
  [mkGE 2 1 1 0; mkGE 4 1 1 0; mkGE 6 1 1 0] (only parsing).
Local Abbreviation toy_set :=
  (mkCosigners Toy.fe toy_keys 0 (mkGE 12 3 3 0) (fullPolicy Toy.fe))
  (only parsing).
Local Abbreviation toy_SetMask := (SetMask Toy.fe Toy.ge_Zero Toy.ge_Add)
  (only parsing).
Local Abbreviation toy_SetMaskBits := (SetMaskBits Toy.fe Toy.ge_Add Toy.ge_Sub)
  (only parsing).
Local Abbreviation toy_Verify :=
  (Verify Toy.fe Toy.FeNeg Toy.ge_Zero Toy.ge_Add Toy.ge_ToBytes Toy.pge
          Toy.GeDoubleScalarMultVartime Toy.pge_ToBytes Toy.sha512)
  (only parsing).
Local Abbreviation toy_AggregateCommit :=
  (AggregateCommit Toy.fe Toy.ge_Zero Toy.ge_Add Toy.ge_FromBytes Toy.ge_ToBytes)
  (only parsing).
Local Abbreviation scalar z := (le_split 32 z) (only parsing).

Local Abbreviation toy_ops :=
  [(1, Enabled); (0, Disabled); (2, Disabled); (0, Enabled)] (only parsing).
Local Abbreviation toy_after :=
  (snd (toy_SetMaskBits toy_ops (toy_SetMask [Byte.x02] toy_set)))
  (only parsing).
Local Abbreviation toy_sig := (scalar 8 ++ scalar 3 ++ [Byte.x02])
  (only parsing).

Lemma aggr_cache_invariant_witness :
  mask Toy.fe (toy_SetMask (Mask Toy.fe toy_after) toy_after)
  = mask Toy.fe toy_after
  /\ aggr Toy.fe toy_after
     = aggr Toy.fe (toy_SetMask (Mask Toy.fe toy_after) toy_after).
Proof.
  apply (proj2 (proj2 (proj2
           (@aggr_cache_invariant Toy.fe eq Toy.ge_Zero Toy.ge_Add Toy.ge_Sub
              Toy.ge_FromBytes eq_equivalence Toy_ge_Add_proper
              Toy_ge_Sub_proper Toy_ge_Add_assoc Toy_ge_Add_comm
              Toy_ge_Sub_Add)))
         [Byte.x02] toy_set toy_ops toy_after).
  vm_compute. reflexivity.
Defined.

Local Abbreviation toy_cosign :=
  (Cosign Toy.sha512 (zeros 64) (mkSecret (scalar 5) true)
          [Byte.x01] (scalar 7) (scalar 9)) (only parsing).
Local Abbreviation toy_cosign_short_key :=
  (Cosign Toy.sha512 (zeros 63) (mkSecret (scalar 5) true)
          [Byte.x01] (scalar 7) (scalar 9)) (only parsing).

Lemma Cosign_consumes_secret_witness :
  snd toy_cosign = mkSecret (zeros 32) false
  /\ returns (fst (Cosign Toy.sha512 (zeros 64) (snd toy_cosign)
                          [Byte.x02] (scalar 7) (scalar 9))) = false.
Proof.
  destruct (proj1 (Cosign_consumes_secret Toy.sha512 (zeros 64)
                     (mkSecret (scalar 5) true) [Byte.x01] (scalar 7) (scalar 9))
                  (match fst toy_cosign with Ret s => s | Panic _ => [] end)
                  (snd toy_cosign))
    as [Hs Hagain].
  - vm_compute. reflexivity.
  - split; [exact Hs | apply Hagain].
Defined.

(** C2 as stated fails when [Cosign] panics on a bad key length: the
    secret stays valid and keeps its scalar. *)
Lemma Cosign_panic_keeps_secret :
  returns (fst toy_cosign_short_key) = false
  /\ valid (snd toy_cosign_short_key) = true
  /\ reduced (snd toy_cosign_short_key) <> zeros 32.
Proof. vm_compute. repeat split. discriminate. Qed.

Lemma Cosign_share_witness :
  exists s : list byte,
    fst (Cosign Toy.sha512 (zeros 64) (mkSecret (scalar 5) true)
                [Byte.x01] (scalar 7) (scalar 9)) = Ret s
    /\ length s = 32%nat /\ 0 <= le_combine s < ell.
Proof.
  destruct (Cosign_share Toy.sha512 Toy_sha512_length (zeros 64)
              (mkSecret (scalar 5) true) [Byte.x01] (scalar 7) (scalar 9))
    as (E & L & _ & R); try reflexivity.
  eexists. split; [exact E | split; [exact L | exact R]].
Defined.

Lemma Cosign_panics_iff_witness :
  returns (fst (Cosign Toy.sha512 (zeros 64) (mkSecret (scalar 5) true)
                       [Byte.x01] (scalar 7) (zeros 31))) = false.
Proof.
  apply (proj2 (Cosign_panics_iff Toy.sha512 (zeros 64)
                  (mkSecret (scalar 5) true) [Byte.x01] (scalar 7) (zeros 31))).
  right. left. vm_compute. lia.
Defined.

(** C4 as stated fails for an aggregate public key of the wrong length:
    [Cosign] returns a share. *)
Lemma Cosign_ignores_aggregateK_length :
  length ([] : list byte) <> 32%nat
  /\ returns (fst (Cosign Toy.sha512 (zeros 64) (mkSecret (scalar 5) true)
                          [Byte.x01] [] (scalar 9))) = true.
Proof. split; [discriminate | vm_compute; reflexivity]. Qed.

Lemma Verify_rejects_witness :
  snd (toy_Verify toy_set [Byte.x01] toy_sig) = toy_SetMask [Byte.x02] toy_set
  /\ Mask Toy.fe (snd (toy_Verify toy_set [Byte.x01] toy_sig)) = [Byte.x02]
  /\ fst (toy_Verify toy_set [Byte.x01] toy_sig) = false.
Proof.
  destruct (proj2 (Verify_rejects Toy.fe Toy.FeNeg Toy.ge_Zero Toy.ge_Add
                     Toy.ge_ToBytes Toy.pge Toy.GeDoubleScalarMultVartime
                     Toy.pge_ToBytes Toy.sha512 toy_set [Byte.x01] toy_sig))
    as (Hstate & _ & Hmask & Hpolicy & _).
  - vm_compute. reflexivity.
  - split; [exact Hstate|]. split.
    + rewrite Hstate. apply Hmask. vm_compute. reflexivity.
    + apply Hpolicy. vm_compute. reflexivity.
Defined.

Lemma AggregateSignature_layout_witness :
  exists sbar : list byte,
    AggregateSignature Toy.fe (toy_SetMask [Byte.x02] toy_set) (scalar 9)
                       [scalar 1; [Byte.x03]; scalar 5]
    = Ret (Some (scalar 9 ++ sbar ++ [Byte.x02]))
    /\ le_combine sbar = 6.
Proof.
  destruct (proj2 (AggregateSignature_layout Toy.fe
                     (toy_SetMask [Byte.x02] toy_set) (scalar 9)
                     [scalar 1; [Byte.x03]; scalar 5]))
    as (sbar & E & _ & S & _); try (vm_compute; reflexivity).
  exists sbar. split; [exact E | exact S].
Defined.

Lemma AggregateCommit_spec_witness :
  toy_AggregateCommit (toy_SetMask [Byte.x02] toy_set)
                      [scalar 2; [Byte.x03]; scalar 7]
  = Ret None.
Proof.
  apply (AggregateCommit_spec Toy.fe Toy.ge_Zero Toy.ge_Add Toy.ge_FromBytes
           Toy.ge_ToBytes Toy_ge_ToBytes_length
           (toy_SetMask [Byte.x02] toy_set) [scalar 2; [Byte.x03]; scalar 7]).
  - vm_compute. reflexivity.
  - vm_compute. reflexivity.
Defined.

Lemma SetMask_Mask_roundtrip_witness :
  Mask Toy.fe (toy_SetMask [Byte.x05] toy_set) = [Byte.x05].
Proof.
  apply (proj1 (SetMask_Mask_roundtrip Toy.fe Toy.ge_Zero Toy.ge_Add)
               toy_set [Byte.x05]).
  - vm_compute. reflexivity.
  - vm_compute. reflexivity.
Defined.

Lemma AggregateSignature_malformed_part_witness :
  AggregateSignature Toy.fe (toy_SetMask [Byte.x02] toy_set) (scalar 9)
                     [scalar 1; [Byte.x03]; [Byte.x05]]
  = Ret None.
Proof.
  apply (proj1 (AggregateSignature_malformed_part Toy.fe
                  (toy_SetMask [Byte.x02] toy_set) (scalar 9)
                  [scalar 1; [Byte.x03]; [Byte.x05]])
               2%nat [Byte.x05]).
  - vm_compute. reflexivity.
  - vm_compute. lia.
  - vm_compute. reflexivity.
  - vm_compute. reflexivity.
  - vm_compute. lia.
Defined.

(** ** The further properties at concrete inputs *)

Local Abbreviation toy_masked := (toy_SetMask [Byte.x02] toy_set) (only parsing).
Local Abbreviation toy_none := (toy_SetMask [Byte.x07] toy_set) (only parsing).
Local Abbreviation toy_new :=
  (NewCosigners Toy.fe Toy.ge_Zero Toy.ge_Add Toy.ge_FromBytes) (only parsing).
Local Abbreviation toy_SetMaskBit := (SetMaskBit Toy.fe Toy.ge_Add Toy.ge_Sub)
  (only parsing).
Local Abbreviation toy_secret z := (mkSecret (scalar z) true) (only parsing).
Local Abbreviation toy_any :=
  (mkCosigners Toy.fe toy_keys 0 (mkGE 12 3 3 0) (thresPolicy Toy.fe 0))
  (only parsing).
Local Abbreviation toy_empty_sig := (scalar 6 ++ scalar 3 ++ [Byte.x07])
  (only parsing).
Local Abbreviation toy_VerifyPart :=
  (VerifyPart Toy.fe Toy.FeNeg Toy.ge_ToBytes Toy.pge
              Toy.GeDoubleScalarMultVartime Toy.pge_ToBytes Toy.sha512)
  (only parsing).
Local Abbreviation toy_flat :=
  (mkCosigners Toy.fe [mkGE 0 1 1 0; mkGE 4 1 1 0] 0 (mkGE 4 2 2 0)
               (fullPolicy Toy.fe)) (only parsing).

Ltac small_index i H :=
  vm_compute in H;
  destruct i as [|[|[|i]]]; [reflexivity | reflexivity | reflexivity | lia].

Lemma CountEnabled_bounds_witness :
  CountEnabled Toy.fe toy_set = CountTotal Toy.fe toy_set.
Proof.
  apply (proj2 (proj2 (proj2 (CountEnabled_bounds Toy.fe toy_set)))).
  intros i Hi. small_index i Hi.
Defined.

Lemma policy_checks_witness :
  Check Toy.fe (ThresholdPolicy Toy.fe 0) toy_none = true.
Proof.
  apply (proj1 (proj2 (proj2 (policy_checks Toy.fe toy_none 0)))). lia.
Defined.

Lemma Verify_default_policy_needs_all_witness :
  fst (toy_Verify toy_set [Byte.x01] toy_sig) = false.
Proof.
  apply (Verify_default_policy_needs_all Toy.fe Toy.FeNeg Toy.ge_Zero
           Toy.ge_Add Toy.ge_ToBytes Toy.pge Toy.GeDoubleScalarMultVartime
           Toy.pge_ToBytes Toy.sha512 toy_set [Byte.x01] toy_sig 1%nat).
  - reflexivity.
  - vm_compute. reflexivity.
  - unfold CountTotal. cbn. lia.
  - vm_compute. reflexivity.
Defined.

Lemma NewCosigners_fresh_witness :
  match toy_new [scalar 2; scalar 4; scalar 6] with
  | Some cos => mask Toy.fe cos = 0
                /\ CountEnabled Toy.fe cos = CountTotal Toy.fe cos
  | None => False
  end.
Proof.
  destruct (toy_new [scalar 2; scalar 4; scalar 6]) as [cos|] eqn:E.
  - destruct (NewCosigners_fresh Toy.fe Toy.ge_Zero Toy.ge_Add
                Toy.ge_FromBytes _ cos E) as (_ & Hm & _ & _ & Hc & _).
    split; [exact Hm | exact Hc].
  - vm_compute in E. discriminate E.
Defined.

Lemma NewCosigners_decodes_witness :
  toy_new [scalar 2; scalar 3] = None.
Proof.
  apply (proj1 (NewCosigners_decodes Toy.fe Toy.ge_Zero Toy.ge_Add
                  Toy.ge_FromBytes [scalar 2; scalar 3]
                  ltac:(repeat constructor; vm_compute; lia))).
  exists (scalar 3). split; [right; left; reflexivity | vm_compute; reflexivity].
Defined.

Lemma NewCosigners_short_key_witness :
  toy_new [[Byte.x02]; scalar 4] = toy_new [[Byte.x02] ++ zeros 31; scalar 4].
Proof.
  apply (proj1 (NewCosigners_short_key Toy.fe Toy.ge_Zero Toy.ge_Add
                  Toy.ge_FromBytes [Byte.x02] [] [scalar 4])).
  vm_compute. lia.
Defined.

Lemma SetMask_overwrites_witness :
  toy_SetMask [Byte.x0a] toy_set = toy_SetMask [Byte.x02] toy_set.
Proof.
  apply (proj1 (proj2 (SetMask_overwrites Toy.fe Toy.ge_Zero Toy.ge_Add
                         [Byte.x02] toy_set))).
  intros i Hi. small_index i Hi.
Defined.

Lemma SetMaskBit_sets_bit_witness :
  exists cos',
    toy_SetMaskBit 1 Disabled toy_set = (Ret tt, cos')
    /\ MaskBitOf Toy.fe cos' 1 = Ret Disabled.
Proof.
  destruct (SetMaskBit_sets_bit Toy.fe Toy.ge_Add Toy.ge_Sub 1 Disabled toy_set)
    as (cos' & E & Hbit & _).
  - unfold CountTotal. cbn. lia.
  - exists cos'. split; [exact E | exact Hbit].
Defined.

Lemma SetMaskBit_same_bit_witness :
  toy_SetMaskBit 5 Enabled toy_set = (Ret tt, toy_set).
Proof.
  apply (SetMaskBit_same_bit Toy.fe Toy.ge_Add Toy.ge_Sub 5 Enabled toy_set).
  vm_compute. reflexivity.
Defined.

Lemma SetMaskBit_panics_witness :
  toy_SetMaskBit (-1) Disabled toy_set = (Panic NegativeBitIndex, toy_set).
Proof.
  apply (proj1 (proj2 (SetMaskBit_panics Toy.fe Toy.ge_Add Toy.ge_Sub
                         (-1) Disabled toy_set))).
  lia.
Defined.

Lemma SetMaskBit_CountEnabled_witness :
  S (CountEnabled Toy.fe (snd (toy_SetMaskBit 1 Disabled toy_set)))
  = CountEnabled Toy.fe toy_set.
Proof.
  apply (SetMaskBit_CountEnabled Toy.fe Toy.ge_Add Toy.ge_Sub 1 toy_set).
  - unfold CountTotal. cbn. lia.
  - vm_compute. reflexivity.
Defined.

Lemma SetMaskBit_undo_witness :
  mask Toy.fe (snd (toy_SetMaskBit 1 Enabled
                      (snd (toy_SetMaskBit 1 Disabled toy_set))))
  = mask Toy.fe toy_set.
Proof.
  apply (@SetMaskBit_undo Toy.fe eq Toy.ge_Zero Toy.ge_Add Toy.ge_Sub
           eq_equivalence Toy_ge_Add_proper Toy_ge_Sub_proper
           Toy_ge_Add_assoc Toy_ge_Add_comm Toy_ge_Sub_Add
           1 Enabled toy_set).
  - unfold CountTotal. cbn. lia.
  - vm_compute. reflexivity.
  - vm_compute. reflexivity.
Defined.

Lemma Commit_then_Cosign_witness :
  exists (secret : Secret) (s : list byte) (secret' : Secret),
    Commit Toy.fe Toy.ge_ToBytes Toy.GeScalarMultBase (Some (le_split 64 5))
    = Some (Toy.ge_ToBytes (Toy.GeScalarMultBase (reduced secret)), secret)
    /\ Cosign Toy.sha512 (zeros 64) secret [Byte.x01] (scalar 7) (scalar 9)
       = (Ret s, secret')
    /\ returns (fst (Cosign Toy.sha512 (zeros 64) secret' [Byte.x02]
                            (scalar 7) (scalar 9))) = false.
Proof.
  destruct (proj2 (Commit_then_Cosign Toy.fe Toy.ge_ToBytes Toy.GeScalarMultBase
                     Toy.sha512 (le_split 64 5) (zeros 64) [Byte.x01]
                     (scalar 7) (scalar 9)))
    as (secret & s & secret' & Hc & _ & _ & _ & Hs & _ & Hagain);
    try reflexivity.
  exists secret, s, secret'. split; [exact Hc|]. split; [exact Hs|].
  apply Hagain.
Defined.

Lemma Cosign_key_first_half_witness :
  Cosign Toy.sha512 (zeros 64) (toy_secret 5) [Byte.x01] (scalar 7) (scalar 9)
  = Cosign Toy.sha512 (zeros 32 ++ scalar 77) (toy_secret 5)
           [Byte.x01] (scalar 7) (scalar 9).
Proof.
  apply (Cosign_key_first_half Toy.sha512); reflexivity.
Defined.

Lemma AggregateSignature_of_Cosign_witness :
  exists sbar : list byte,
    AggregateSignature Toy.fe toy_masked (scalar 9)
      (map (cosign_part Toy.sha512 [Byte.x01] (scalar 7) (scalar 9))
           [(zeros 64, toy_secret 5); ([], mkSecret [] false);
            (le_split 64 9, toy_secret 7)])
    = Ret (Some (scalar 9 ++ sbar ++ Mask Toy.fe toy_masked)).
Proof.
  destruct (AggregateSignature_of_Cosign Toy.fe Toy.sha512 toy_masked
              [Byte.x01] (scalar 7) (scalar 9)
              [(zeros 64, toy_secret 5); ([], mkSecret [] false);
               (le_split 64 9, toy_secret 7)])
    as (sbar & E & _); try (vm_compute; reflexivity).
  exists sbar. exact E.
Defined.

Lemma all_disabled_aggregates_witness :
  toy_AggregateCommit toy_none [] = Ret (Some (Toy.ge_ToBytes Toy.ge_Zero)).
Proof.
  apply (all_disabled_aggregates Toy.fe Toy.ge_Zero Toy.ge_Add Toy.ge_FromBytes
           Toy.ge_ToBytes toy_none [] [] [] []).
  intros i Hi. small_index i Hi.
Defined.

Lemma aggregation_short_list_panics_witness :
  toy_AggregateCommit toy_set [scalar 2; scalar 4] = Panic IndexOutOfRange.
Proof.
  apply (aggregation_short_list_panics Toy.fe Toy.ge_Zero Toy.ge_Add
           Toy.ge_FromBytes Toy.ge_ToBytes toy_set [] [scalar 2; scalar 4] []
           2%nat).
  - unfold CountTotal. cbn. lia.
  - reflexivity.
  - cbn. lia.
  - vm_compute. reflexivity.
Defined.

Lemma AggregateSignature_then_Verify_witness :
  Mask Toy.fe (snd (toy_Verify toy_set [Byte.x01]
                               (scalar 9 ++ scalar 6 ++ [Byte.x02])))
  = Mask Toy.fe toy_masked.
Proof.
  apply (AggregateSignature_then_Verify Toy.fe Toy.FeNeg Toy.ge_Zero Toy.ge_Add
           Toy.ge_ToBytes Toy.pge Toy.GeDoubleScalarMultVartime
           Toy.pge_ToBytes Toy.sha512 toy_masked toy_set (scalar 9) [Byte.x01]
           (scalar 9 ++ scalar 6 ++ [Byte.x02])
           [scalar 1; []; scalar 5]).
  - vm_compute. reflexivity.
  - vm_compute. reflexivity.
Defined.

Lemma Verify_accepts_witness :
  fst (toy_Verify toy_any [Byte.x01] toy_empty_sig) = true.
Proof.
  apply (Verify_accepts Toy.fe Toy.FeNeg Toy.ge_Zero Toy.ge_Add Toy.ge_ToBytes
           Toy.pge Toy.GeDoubleScalarMultVartime Toy.pge_ToBytes Toy.sha512
           toy_any [Byte.x01] toy_empty_sig).
  repeat split; vm_compute; reflexivity.
Defined.

Lemma VerifyPart_result_witness :
  fst (toy_VerifyPart toy_flat [Byte.x01] (scalar 9) 0 (scalar 6) (scalar 3))
  = Ret true.
Proof.
  destruct (proj2 (VerifyPart_result Toy.fe Toy.FeNeg Toy.ge_ToBytes Toy.pge
                     Toy.GeDoubleScalarMultVartime Toy.pge_ToBytes Toy.sha512
                     toy_flat [Byte.x01] (scalar 9) 0 (scalar 6) (scalar 3))
                  (mkGE 0 1 1 0) ltac:(lia) eq_refl)
    as (ok & E & Hok).
  rewrite E. cbn [fst]. f_equal. apply Hok.
  repeat split; vm_compute; reflexivity.
Defined.

Local Abbreviation toy_two :=
  (mkCosigners Toy.fe toy_keys 0 (mkGE 12 3 3 0) (thresPolicy Toy.fe 2))
  (only parsing).

(** A run that reaches the check with the aggregate (8, 2, 2, 0), whose
    negation is another point, and a run that the check accepts. *)
Lemma verify_keeps_aggr_witness :
  (snd (toy_Verify toy_two [Byte.x01] toy_sig) = toy_SetMask [Byte.x02] toy_two
   /\ aggr Toy.fe (snd (toy_Verify toy_two [Byte.x01] toy_sig))
      = enabled_sum Toy.fe Toy.ge_Zero Toy.ge_Add
                    (snd (toy_Verify toy_two [Byte.x01] toy_sig))
   /\ aggr Toy.fe (snd (toy_Verify toy_two [Byte.x01] toy_sig)) = mkGE 8 2 2 0
   /\ negated Toy.fe Toy.FeNeg (mkGE 8 2 2 0) = mkGE (-8) 2 2 0)
  /\ fst (toy_Verify toy_any [Byte.x01] toy_empty_sig) = true.
Proof.
  pose proof (@verify_keeps_aggr Toy.fe Toy.FeNeg eq Toy.ge_Zero Toy.ge_Add
                Toy.ge_ToBytes Toy.pge Toy.GeDoubleScalarMultVartime
                Toy.pge_ToBytes Toy.sha512 eq_equivalence) as Hthm.
  split.
  - destruct (proj1 (Hthm toy_two [Byte.x01]) toy_sig)
      as (_ & Hstate & Hsum).
    + vm_compute. reflexivity.
    + vm_compute. reflexivity.
    + split; [exact Hstate|]. split; [exact Hsum|].
      split; vm_compute; reflexivity.
  - destruct (proj1 (Hthm toy_any [Byte.x01]) toy_empty_sig)
      as (Hacc & _).
    + vm_compute. reflexivity.
    + vm_compute. reflexivity.
    + apply Hacc. split; vm_compute; reflexivity.
Defined.
